(** * The persistence and scoring core of the camp bot (database/db.py)

    A shallow embedding of [database/db.py]: the SQLite tables are lists of
    rows, the module-level connection [con] is a value threaded through every
    call, dictionaries built in Python are [gmap]s and Python sets are
    [gset]s.  Every function of the module returns its Python result paired
    with the connection it leaves behind.

    The failures a statement has in this model are the PRIMARY KEY violation
    of an INSERT into [point_code] and the integer overflow of the SUM of
    [get_group_point]; the other [except sqlite3.Error] branches, which
    report a failure of the store itself, are not taken.  The collaborators that are imported and not defined in the module
    ([utils.gen_code], [task.get_all_tasks], [task.get_task_by_id]) are
    parameters or are modelled from the specification, as said where they
    appear. *)

From stdpp Require Import base numbers strings list gmap sorting relations.

Local Open Scope string_scope.
Local Open Scope list_scope.
Local Open Scope Z_scope.

(** ** Data model *)

(** [CodePoint = Tuple[Code, Point, UsedBy]]: one row of [point_code]. *)
Record CodePoint := mkCodePoint {
  code : string;
  point : Z;
  used_by : Z;
}.

(** One row of [submissions]. *)
Record Submission := mkSubmission {
  group_id : Z;
  task_id : string;
  password : string;
  is_correct : bool;
}.

#[global] Instance CodePoint_eq_dec : EqDecision CodePoint.
Proof. solve_decision. Defined.

#[global] Instance Submission_eq_dec : EqDecision Submission.
Proof. solve_decision. Defined.

(** The tables the functions below read and write. *)
Record Database := mkDatabase {
  point_code : list CodePoint;
  submissions : list Submission;
  message : list Z;
}.

(** The connection [con]: statements act on [pending]; [con.commit()] makes
    it durable, [con.rollback()] throws it away. *)
Record Connection := mkConnection {
  committed : Database;
  pending : Database;
}.

Definition commit (con : Connection) : Connection :=
  {| committed := pending con; pending := pending con |}.

Definition rollback (con : Connection) : Connection :=
  {| committed := committed con; pending := committed con |}.

Definition execute_point_code (f : list CodePoint → list CodePoint)
    (con : Connection) : Connection :=
  {| committed := committed con;
     pending := {| point_code := f (point_code (pending con));
                   submissions := submissions (pending con);
                   message := message (pending con) |} |}.

Definition execute_submissions (f : list Submission → list Submission)
    (con : Connection) : Connection :=
  {| committed := committed con;
     pending := {| point_code := point_code (pending con);
                   submissions := f (submissions (pending con));
                   message := message (pending con) |} |}.

Definition execute_message (f : list Z → list Z) (con : Connection)
    : Connection :=
  {| committed := committed con;
     pending := {| point_code := point_code (pending con);
                   submissions := submissions (pending con);
                   message := f (message (pending con)) |} |}.

(** [Error = Union[str, None]]. *)
Definition Error : Type := option string.

(** [cur.fetchone()]: the first row of the result set, or [None]. *)
Definition fetchone {A} (rows : list A) : option A := head rows.

(** ** Point codes: redemption and deletion *)

(** [SELECT `used_by`, `point` FROM `point_code` WHERE `code` = ?] *)
Definition sql_check_code (c : string) (rows : list CodePoint) : list (Z * Z) :=
  (λ r, (used_by r, point r)) <$> filter (λ r, code r = c) rows.

(** [UPDATE `point_code` SET `used_by` = ? WHERE `code` = ?] *)
Definition sql_update (group : Z) (c : string) (rows : list CodePoint)
    : list CodePoint :=
  (λ r, if decide (code r = c)
        then {| code := code r; point := point r; used_by := group |}
        else r) <$> rows.

Definition use_point_code (c : string) (group : Z) (con : Connection)
    : Connection * (option Z * Error) :=
  let res := fetchone (sql_check_code c (point_code (pending con))) in
  let con := commit con in
  match res with
  | None => (con, (None, Some "not exists"))
  | Some (used_by, point) =>
      if bool_decide (used_by > 0 ∨ used_by = -1)
      then (con, (None, Some "used"))
      else
        let con := execute_point_code (sql_update group c) con in
        let con := commit con in
        (con, (Some point, None))
  end.

(** [SELECT 1 FROM `point_code` WHERE `code` = ? AND `used_by` = 0] *)
Definition sql_check_not_used (c : string) (rows : list CodePoint) : list Z :=
  (λ _, 1) <$> filter (λ r, code r = c ∧ used_by r = 0) rows.

Definition delete_point_code (c : string) (con : Connection)
    : Connection * (option unit * Error) :=
  let res := fetchone (sql_check_not_used c (point_code (pending con))) in
  let con := commit con in
  match res with
  | None => (con, (None, Some "used"))
  | Some _ =>
      let con := execute_point_code (sql_update (-1) c) con in
      let con := commit con in
      (con, (None, None))
  end.

(** [SELECT * FROM `point_code`] *)
Definition get_point_code (con : Connection)
    : Connection * (option (list CodePoint) * Error) :=
  let rows := point_code (pending con) in
  let con := commit con in
  (con, (Some rows, None)).

(** ** Point codes: issuance *)

(** What a statement can raise in this model: a PRIMARY KEY violation. *)
Inductive sqlite3_Error := IntegrityError.

(** Modelled from the spec: the schema of [database/init.sql], which is not
    part of the sources; the spec gives it as
    [point_code(code TEXT PRIMARY KEY, point INTEGER, used_by INTEGER DEFAULT 0)].
    So [INSERT INTO `point_code`(`code`, `point`) VALUES (?, ?)] is refused
    when the code is already stored, and a new row starts with
    [used_by = 0]. *)
Definition sql_insert (row : string * Z) (rows : list CodePoint)
    : sqlite3_Error + list CodePoint :=
  if decide (row.1 ∈ code <$> rows)
  then inl IntegrityError
  else inr (rows ++ [{| code := row.1; point := row.2; used_by := 0 |}]).

(** [con.executemany(sql, codes)]: one INSERT per parameter tuple, in order,
    all in the open transaction; the first refused INSERT raises and leaves
    the rows inserted before it pending. *)
Fixpoint executemany (codes : list (string * Z)) (con : Connection)
    : Connection * option sqlite3_Error :=
  match codes with
  | [] => (con, None)
  | row :: codes' =>
      match sql_insert row (point_code (pending con)) with
      | inl err => (con, Some err)
      | inr rows' => executemany codes' (execute_point_code (λ _, rows') con)
      end
  end.

Section issuance.
(** [utils.gen_code] is not part of the sources: it is a parameter, a
    generator with its own state [G] (the random source it draws from). *)
Context {G : Type} (gen_code : G → string * G).

(** [[(gen_code(), point) for _ in range(amount)]] *)
Fixpoint gen_codes (amount : nat) (point : Z) (g : G)
    : list (string * Z) * G :=
  match amount with
  | O => ([], g)
  | S amount' =>
      let '(c, g) := gen_code g in
      let '(codes, g) := gen_codes amount' point g in
      ((c, point) :: codes, g)
  end.

(** The [while True] loop, with one unit of [fuel] per iteration; [None]
    means the loop is still running when the fuel is spent. *)
Fixpoint gen_point_code (fuel : nat) (point amount : Z) (g : G)
    (con : Connection)
    : option (G * Connection * (option (list string) * Error)) :=
  match fuel with
  | O => None
  | S fuel' =>
      let '(codes, g) := gen_codes (Z.to_nat amount) point g in
      match executemany codes con with
      | (con, None) =>
          let con := commit con in
          Some (g, con, (Some (fst <$> codes), None))
      | (con, Some IntegrityError) =>
          let con := rollback con in
          gen_point_code fuel' point amount g con
      end
  end.
End issuance.

(** ** The group-selection message *)

(** [SELECT `id` FROM `message` LIMIT 1] *)
Definition get_group_selection_message_id (con : Connection)
    : Connection * (option Z * Error) :=
  let row := fetchone (take 1 (message (pending con))) in
  let con := commit con in
  match row with
  | None => (con, (None, Some "not exists"))
  | Some id => (con, (Some id, None))
  end.

(** [INSERT INTO `message` VALUES (?)] *)
Definition store_group_selection_message_id (id : Z) (con : Connection)
    : Connection * (option unit * Error) :=
  let con := execute_message (λ rows, rows ++ [id]) con in
  let con := commit con in
  (con, (None, None)).

(** ** Submissions *)

(** [INSERT INTO `submissions`(...) VALUES (?, ?, ?, ?)] *)
Definition log_submission (group_id : Z) (task_id password : string)
    (is_correct : bool) (con : Connection) : Connection * (option unit * Error) :=
  let con :=
    execute_submissions
      (λ rows, rows ++ [mkSubmission group_id task_id password is_correct]) con in
  let con := commit con in
  (con, (None, None)).

(** SQL [SUM]: NULL over no rows. *)
Definition sql_sum (xs : list Z) : option Z :=
  match xs with
  | [] => None
  | _ => Some (foldr Z.add 0 xs)
  end.

(** SQL [COALESCE(x, d)]. *)
Definition coalesce (x : option Z) (d : Z) : Z := default d x.

(** The SQL comparison [`is_correct` = k], as the integer SQLite makes it. *)
Definition is_correct_eq (k : Z) (r : Submission) : Z :=
  if decide (Z.b2z (is_correct r) = k) then 1 else 0.

(** [SELECT COALESCE(SUM(`is_correct` = 1), 0), COALESCE(SUM(`is_correct` = 0), 0)
     FROM `submissions` WHERE `group_id` = ? AND `task_id` = ?]: an aggregate
    without GROUP BY, hence exactly one row. *)
Definition sql_statistics (g : Z) (t : string) (rows : list Submission)
    : list (Z * Z) :=
  let matching := filter (λ r, group_id r = g ∧ task_id r = t) rows in
  [(coalesce (sql_sum (is_correct_eq 1 <$> matching)) 0,
    coalesce (sql_sum (is_correct_eq 0 <$> matching)) 0)].

Definition get_submissions_statistics (g : Z) (t : string) (con : Connection)
    : Connection * (option (Z * Z) * Error) :=
  let rows := fetchone (sql_statistics g t (submissions (pending con))) in
  let con := commit con in
  (con, (rows, None)).

(** ** Ranking *)

(** SQL [GROUP BY]: the rows that share a key, per key, in table order.  A
    key has a group only when at least one row carries it. *)
Definition sql_group_by `{Countable K} {A} (key : A → K) (rows : list A)
    : gmap K (list A) :=
  foldr (λ r acc, <[key r := r :: default [] (acc !! key r)]> acc) ∅ rows.

(** [ORDER BY `point` DESC, `group` ASC] on rows [(group, point)]. *)
Definition ranks_before (a b : Z * Z) : Prop :=
  b.2 < a.2 ∨ (b.2 = a.2 ∧ a.1 ≤ b.1).

#[global] Instance ranks_before_dec : RelDecision ranks_before.
Proof. intros a b. unfold ranks_before. apply _. Defined.

(** SQLite keeps an INTEGER in 64 bits, signed. *)
Definition in_int64 (z : Z) : Prop := - 2 ^ 63 ≤ z < 2 ^ 63.

(** SQL [SUM] over the INTEGER values of a group, taken in the order of the
    table: a running sum, on which SQLite raises 'integer overflow' as soon
    as it leaves 64 bits.  [None] is that error. *)
Fixpoint sql_sum_integer_from (acc : Z) (xs : list Z) : option Z :=
  match xs with
  | [] => Some acc
  | x :: xs' =>
      if decide (in_int64 (acc + x))
      then sql_sum_integer_from (acc + x) xs'
      else None
  end.

Definition sql_sum_integer (xs : list Z) : option Z :=
  sql_sum_integer_from 0 xs.

(** The result row [(`group`, SUM(`point`))] of one group. *)
Definition sql_group_total (group : Z * list CodePoint) : option (Z * Z) :=
  total ← sql_sum_integer (point <$> group.2); Some (group.1, total).

(** [SELECT `used_by` AS `group`, SUM(`point`) AS `point` FROM `point_code`
     WHERE `used_by` > 0 GROUP BY `used_by` ORDER BY `point` DESC, `group` ASC]:
    the rows of the result, or the message of the [sqlite3.Error] the
    statement raises.  The SUM of a group is never NULL: a group has at
    least one row. *)
Definition sql_group_point (rows : list CodePoint) : string + list (Z * Z) :=
  let redeemed := filter (λ r, used_by r > 0) rows in
  let grouped := map_to_list (sql_group_by used_by redeemed) in
  match mapM sql_group_total grouped with
  | Some totals => inr (merge_sort ranks_before totals)
  | None => inl "integer overflow"
  end.

(** On [sqlite3.Error] the handler prints the error and returns
    [(None, ' '.join(err.args))]; [con.commit()] is not reached. *)
Definition get_group_point (con : Connection)
    : Connection * (option (list (Z * Z)) * Error) :=
  match sql_group_point (point_code (pending con)) with
  | inl msg => (con, (None, Some msg))
  | inr rows =>
      let con := commit con in
      let '(res, groups) :=
        foldl (λ '(res, groups) row, (res ++ [row], groups ∪ {[ row.1 ]}))
              ([], (∅ : gset Z)) rows in
      let res :=
        foldl (λ res i, if decide (i ∉ groups) then res ++ [(i, 0)] else res)
              res (seqZ 1 9) in
      (con, (Some res, None))
  end.

(** ** Scoreboard *)

Module task.
(** A task of the catalog, a dict with the key ['task_id'] and, for some
    tasks, the key ['max_attempt']. *)
Record Task := mkTask {
  task_id : string;
  max_attempt : option Z;
}.

(** Modelled from the spec: [task.get_task_by_id] is not part of the
    sources; the spec gives it as [GetTaskById(id) -> Task or absent].  The
    first task of the catalog with that id, [None] when there is none. *)
Definition get_task_by_id (catalog : list Task) (id : string) : option Task :=
  head (filter (λ t, task_id t = id) catalog).
End task.

(** The exceptions the body of [get_scoreboard] can raise past its
    [except sqlite3.Error] handler. *)
Inductive PyExn := KeyError | TypeError.

Inductive Outcome (A : Type) :=
  | Return (a : A)
  | Raise (e : PyExn).
Arguments Return {A} a.
Arguments Raise {A} e.

(** [SELECT `group_id`, `task_id`, COALESCE(SUM(`is_correct` = 1), 0),
     COALESCE(SUM(`is_correct` = 0), 0) FROM `submissions`
     GROUP BY `group_id`, `task_id`] *)
Definition sql_scoreboard (rows : list Submission) : list (Z * string * Z * Z) :=
  (λ '(k, rs), (k.1, k.2,
                coalesce (sql_sum (is_correct_eq 1 <$> rs)) 0,
                coalesce (sql_sum (is_correct_eq 0 <$> rs)) 0))
  <$> map_to_list (sql_group_by (λ r, (group_id r, task_id r)) rows).

Section scoreboard.
(** [task.get_all_tasks()] is not part of the sources: the catalog it
    returns is a parameter. *)
Context (get_all_tasks : list task.Task).

(** The [status] the loop body computes from a row's counts:
    ['max_attempt' in task and fail_count >= task['max_attempt']] first,
    [success_count > 0] second. *)
Definition row_status (task : task.Task) (success_count fail_count : Z) : Z :=
  if match task.max_attempt task with
     | Some max_attempt => bool_decide (fail_count >= max_attempt)
     | None => false
     end
  then -1
  else if bool_decide (success_count > 0) then 1 else 0.

(** One iteration of [for row in rows].  A task the catalog does not have
    is Python's [None], on which ['max_attempt' in task] raises TypeError;
    [table[group_id]] raises KeyError on a missing key. *)
Definition scoreboard_row (row : Z * string * Z * Z)
    (table : gmap Z (gmap string Z)) : Outcome (gmap Z (gmap string Z)) :=
  let '(group_id, task_id, success_count, fail_count) := row in
  match task.get_task_by_id get_all_tasks task_id with
  | None => Raise TypeError
  | Some task =>
      let status := row_status task success_count fail_count in
      match table !! group_id with
      | None => Raise KeyError
      | Some inner => Return (<[group_id := <[task_id := status]> inner]> table)
      end
  end.

Fixpoint scoreboard_rows (rows : list (Z * string * Z * Z))
    (table : gmap Z (gmap string Z)) : Outcome (gmap Z (gmap string Z)) :=
  match rows with
  | [] => Return table
  | row :: rows' =>
      match scoreboard_row row table with
      | Return table' => scoreboard_rows rows' table'
      | Raise e => Raise e
      end
  end.

(** [{i: {task['task_id']: 0 for task in tasks} for i in range(1, 10)}] *)
Definition scoreboard_init (tasks : list task.Task) : gmap Z (gmap string Z) :=
  foldl (λ table i,
           <[i := foldl (λ inner task, <[task.task_id task := 0]> inner) ∅ tasks]>
             table)
        ∅ (seqZ 1 9).

Definition get_scoreboard (con : Connection)
    : Connection * Outcome (option (gmap Z (gmap string Z)) * Error) :=
  let rows := sql_scoreboard (submissions (pending con)) in
  let con := commit con in
  let tasks := get_all_tasks in
  let table := scoreboard_init tasks in
  match scoreboard_rows rows table with
  | Return table => (con, Return (Some table, None))
  | Raise e => (con, Raise e)
  end.
End scoreboard.

(** ** The module as a transition system *)

(** One call of a function of the module, whatever its arguments and its
    result: the connection before and after.  A call of [gen_point_code]
    counts when its loop ends. *)
Inductive api_call : Connection → Connection → Prop :=
  | call_gen_point_code {G} (gen_code : G → string * G) fuel point amount g
        con g' con' res :
      gen_point_code gen_code fuel point amount g con = Some (g', con', res) →
      api_call con con'
  | call_get_point_code con :
      api_call con (get_point_code con).1
  | call_use_point_code c group con :
      api_call con (use_point_code c group con).1
  | call_delete_point_code c con :
      api_call con (delete_point_code c con).1
  | call_get_group_point con :
      api_call con (get_group_point con).1
  | call_get_group_selection_message_id con :
      api_call con (get_group_selection_message_id con).1
  | call_store_group_selection_message_id id con :
      api_call con (store_group_selection_message_id id con).1
  | call_log_submission g t pw ok con :
      api_call con (log_submission g t pw ok con).1
  | call_get_submissions_statistics g t con :
      api_call con (get_submissions_statistics g t con).1
  | call_get_scoreboard tasks con :
      api_call con (get_scoreboard tasks con).1.

(** Any number of calls, one after the other. *)
Definition later : relation Connection := rtc api_call.

(** ** Vocabulary of the statements *)

(** The row stored for a code: the one the lookups by code return. *)
Definition stored (c : string) (rows : list CodePoint) : option CodePoint :=
  head (filter (λ r, code r = c) rows).

(** Nothing is pending: every function of the module leaves the connection
    so, and so does the start-up script. *)
Definition quiescent (con : Connection) : Prop :=
  committed con = pending con.

(** The PRIMARY KEY of [point_code]. *)
Definition primary_key (rows : list CodePoint) : Prop :=
  NoDup (code <$> rows).

(** The submissions of one group for one task. *)
Definition attempts (g : Z) (t : string) (rows : list Submission)
    : list Submission :=
  filter (λ r, group_id r = g ∧ task_id r = t) rows.

(** The entry [table[g][t]] of a two-level dict, if there is one. *)
Definition entry (table : gmap Z (gmap string Z)) (g : Z) (t : string)
    : option Z :=
  table !! g ≫= (λ inner, inner !! t).

(** The sum of a list of integers, without bound. *)
Definition sum_Z (xs : list Z) : Z := foldr Z.add 0 xs.

(** The groups that redeemed a code, each with the sum of its points, in the
    order of the ranking. *)
Definition ranked_totals (rows : list CodePoint) : list (Z * Z) :=
  let redeemed := filter (λ r, used_by r > 0) rows in
  let grouped := map_to_list (sql_group_by used_by redeemed) in
  merge_sort ranks_before ((λ '(g, rs), (g, sum_Z (point <$> rs))) <$> grouped).

(** No running sum of the points of a group leaves 64 bits. *)
Definition sums_fit (rows : list CodePoint) : Prop :=
  ∀ g n, g > 0 →
    in_int64 (sum_Z (take n (point <$> filter (λ r, used_by r = g) rows))).

(** The (group, 0) entries [get_group_point] appends. *)
Definition padding (ranked : list (Z * Z)) : list (Z * Z) :=
  (λ i, (i, 0)) <$> filter (λ i, i ∉ ranked.*1) (seqZ 1 9).

(** The row an INSERT of [gen_point_code] creates. *)
Definition issued_row (row : string * Z) : CodePoint :=
  {| code := row.1; point := row.2; used_by := 0 |}.

(** A batch that [executemany] accepts whole: its codes differ from each
    other and from every stored code. *)
Definition fresh_batch (codes : list (string * Z)) (rows : list CodePoint)
    : Prop :=
  NoDup codes.*1 ∧ ∀ c, c ∈ codes.*1 → c ∉ code <$> rows.

#[global] Instance fresh_batch_dec codes rows : Decision (fresh_batch codes rows).
Proof.
  unfold fresh_batch.
  refine (cast_if_and (decide (NoDup codes.*1))
            (decide (Forall (λ c, c ∉ code <$> rows) codes.*1)));
    rewrite ?Forall_forall in *; naive_solver.
Defined.

(** The connection after a batch went in whole, before the commit. *)
Definition inserted (codes : list (string * Z)) (con : Connection) : Connection :=
  execute_point_code (λ rows, rows ++ (issued_row <$> codes)) con.

(** A code that is redeemed or deleted, on a connection with nothing
    pending. *)
Definition spent (c : string) (con : Connection) : Prop :=
  quiescent con ∧
  ∃ r, stored c (point_code (pending con)) = Some r ∧
       (used_by r > 0 ∨ used_by r = -1).

Section batches.
Context {G : Type} (gen_code : G → string * G) (point amount : Z).

(** The generator after [k] runs of the list comprehension. *)
Fixpoint batch_state (k : nat) (g : G) : G :=
  match k with
  | O => g
  | S k' => batch_state k' (gen_codes gen_code (Z.to_nat amount) point g).2
  end.

(** The batch the iteration number [k] of the loop generates. *)
Definition batch (k : nat) (g : G) : list (string * Z) :=
  (gen_codes gen_code (Z.to_nat amount) point (batch_state k g)).1.
End batches.

(** ** Stores and collaborators of the examples *)

Definition example_db : Database :=
  {| point_code := [ {| code := "AAAA"; point := 100; used_by := 3 |};
                     {| code := "BBBB"; point := 7; used_by := 0 |};
                     {| code := "CCCC"; point := 70; used_by := -1 |} ];
     submissions := [];
     message := [] |}.

Definition example_con : Connection :=
  {| committed := example_db; pending := example_db |}.

Definition empty_con : Connection :=
  {| committed := mkDatabase [] [] []; pending := mkDatabase [] [] [] |}.

(** Two codes of 2^62 points, both redeemed by group 1. *)
Definition overflow_con : Connection :=
  let db := {| point_code :=
                 [ {| code := "AAAA"; point := 2 ^ 62; used_by := 1 |};
                   {| code := "BBBB"; point := 2 ^ 62; used_by := 1 |} ];
               submissions := [];
               message := [] |} in
  {| committed := db; pending := db |}.

(** A generator that only ever returns one code. *)
Definition constant_gen_code (g : unit) : string * unit := ("AAAA", g).


(** A catalog with one task that limits the attempts and one that does not,
    and the attempts of three groups. *)
Definition example_tasks : list task.Task :=
  [ task.mkTask "t1" (Some 3); task.mkTask "t2" None ].

Definition example_submissions : list Submission :=
  [ mkSubmission 1 "t1" "a" false; mkSubmission 1 "t1" "b" false;
    mkSubmission 1 "t1" "c" false; mkSubmission 1 "t1" "d" true;
    mkSubmission 2 "t1" "a" false; mkSubmission 2 "t1" "d" true;
    mkSubmission 3 "t2" "x" false ].

Definition scoreboard_con : Connection :=
  {| committed := mkDatabase [] example_submissions [];
     pending := mkDatabase [] example_submissions [] |}.

(** A catalog whose only task allows no failed attempt at all. *)
Definition no_attempt_tasks : list task.Task :=
  [ task.mkTask "t1" (Some 0) ].

(** The connection after one more submission is logged. *)
Definition with_submission (r : Submission) (con : Connection) : Connection :=
  (log_submission (group_id r) (task_id r) (password r) (is_correct r) con).1.

(** ** Vocabulary of the further properties *)

(** The points a group holds: the sum of [point] over the rows it redeemed. *)
Definition redeemed_total (g : Z) (rows : list CodePoint) : Z :=
  sum_Z (point <$> filter (λ r, used_by r = g) rows).

(** The list [get_group_point] returns. *)
Definition ranking (con : Connection) : list (Z * Z) :=
  default [] (get_group_point con).2.1.

(** What one call can do to the tables: nothing, append a fresh batch of
    codes, set [used_by] of a code that is not consumed, mark an unused code
    deleted, append a message id, append a submission. *)
Inductive effect (db : Database) : Database → Prop :=
  | effect_none : effect db db
  | effect_issue codes :
      fresh_batch codes (point_code db) →
      effect db {| point_code := point_code db ++ (issued_row <$> codes);
                   submissions := submissions db;
                   message := message db |}
  | effect_redeem c group r :
      stored c (point_code db) = Some r →
      ¬ (used_by r > 0 ∨ used_by r = -1) →
      effect db {| point_code := sql_update group c (point_code db);
                   submissions := submissions db;
                   message := message db |}
  | effect_delete c r :
      r ∈ point_code db → code r = c → used_by r = 0 →
      effect db {| point_code := sql_update (-1) c (point_code db);
                   submissions := submissions db;
                   message := message db |}
  | effect_store id :
      effect db {| point_code := point_code db;
                   submissions := submissions db;
                   message := message db ++ [id] |}
  | effect_log r :
      effect db {| point_code := point_code db;
                   submissions := submissions db ++ [r];
                   message := message db |}.

(** * Proofs *)

(** ** Looking a code up *)

Section stored_facts.
Implicit Types (c : string) (r : CodePoint) (rows : list CodePoint).

Lemma stored_cons c r rows :
  stored c (r :: rows) = if decide (code r = c) then Some r else stored c rows.
Proof. unfold stored. rewrite filter_cons. by case_decide. Qed.

Lemma stored_nil c : stored c [] = None.
Proof. done. Qed.

Lemma stored_code c rows r : stored c rows = Some r → code r = c.
Proof.
  induction rows as [|r' rows IH]; [done|].
  rewrite stored_cons. case_decide; naive_solver.
Qed.

Lemma stored_elem_of c rows r : stored c rows = Some r → r ∈ rows.
Proof.
  induction rows as [|r' rows IH]; [done|].
  rewrite stored_cons. case_decide; intros; simplify_eq; set_solver.
Qed.

Lemma stored_None c rows : stored c rows = None ↔ c ∉ code <$> rows.
Proof.
  induction rows as [|r' rows IH]; [set_solver|].
  rewrite stored_cons, fmap_cons, not_elem_of_cons.
  case_decide; naive_solver.
Qed.

Lemma stored_app c rows rows' :
  stored c (rows ++ rows') =
  match stored c rows with Some r => Some r | None => stored c rows' end.
Proof.
  induction rows as [|r' rows IH]; [done|].
  rewrite <-app_comm_cons, !stored_cons. by case_decide.
Qed.

Lemma stored_update_eq group c rows :
  stored c (sql_update group c rows) =
  (λ r, {| code := code r; point := point r; used_by := group |})
    <$> stored c rows.
Proof.
  induction rows as [|r' rows IH]; [done|].
  unfold sql_update in *. rewrite fmap_cons, !stored_cons.
  repeat (case_decide; simpl in *); try done.
Qed.

Lemma stored_update_ne group c c' rows :
  c ≠ c' → stored c (sql_update group c' rows) = stored c rows.
Proof.
  intros Hne. induction rows as [|r' rows IH]; [done|].
  unfold sql_update in *. rewrite fmap_cons, !stored_cons.
  repeat (case_decide; simpl in *); congruence.
Qed.

Lemma fetchone_check_code c rows :
  fetchone (sql_check_code c rows) =
  (λ r, (used_by r, point r)) <$> stored c rows.
Proof.
  unfold fetchone, sql_check_code, stored. by destruct (filter _ rows).
Qed.

Lemma fetchone_check_not_used c rows :
  fetchone (sql_check_not_used c rows) = None ↔
  ∀ r, r ∈ rows → code r = c → used_by r ≠ 0.
Proof.
  unfold fetchone, sql_check_not_used.
  destruct (filter _ rows) as [|r0 l] eqn:Hf; simpl.
  - split; [|done]. intros _ r Hr Hc Hu.
    assert (r ∈ filter (λ r, code r = c ∧ used_by r = 0) rows) as Hin
      by (apply list_elem_of_filter; done).
    rewrite Hf in Hin. by apply elem_of_nil in Hin.
  - split; [done|]. intros Hall.
    assert (r0 ∈ filter (λ r, code r = c ∧ used_by r = 0) rows) as Hin
      by (rewrite Hf; left).
    apply list_elem_of_filter in Hin as [[Hc Hu] Hin]. by destruct (Hall r0).
Qed.
End stored_facts.

(** ** What each call does to the connection *)

Lemma use_point_code_eq c group con :
  use_point_code c group con =
  match stored c (point_code (pending con)) with
  | None => (commit con, (None, Some "not exists"))
  | Some r =>
      if bool_decide (used_by r > 0 ∨ used_by r = -1)
      then (commit con, (None, Some "used"))
      else (commit (execute_point_code (sql_update group c) (commit con)),
            (Some (point r), None))
  end.
Proof.
  unfold use_point_code. rewrite fetchone_check_code.
  by destruct (stored c _).
Qed.

Lemma delete_point_code_used c con :
  (∀ r, r ∈ point_code (pending con) → code r = c → used_by r ≠ 0) →
  delete_point_code c con = (commit con, (None, Some "used")).
Proof.
  intros Hall. unfold delete_point_code.
  by rewrite (proj2 (fetchone_check_not_used _ _) Hall).
Qed.

Lemma delete_point_code_done c con r :
  r ∈ point_code (pending con) → code r = c → used_by r = 0 →
  delete_point_code c con =
  (commit (execute_point_code (sql_update (-1) c) (commit con)), (None, None)).
Proof.
  intros Hr Hc Hu. unfold delete_point_code.
  destruct (fetchone _) as [x|] eqn:Hf; [done|].
  by destruct (proj1 (fetchone_check_not_used _ _) Hf r).
Qed.

Lemma delete_point_code_cases c con :
  delete_point_code c con = (commit con, (None, Some "used")) ∨
  delete_point_code c con =
  (commit (execute_point_code (sql_update (-1) c) (commit con)), (None, None)).
Proof. unfold delete_point_code. destruct (fetchone _); auto. Qed.

(** ** Issuance: one batch, then the loop *)

Lemma rollback_quiescent con : quiescent con → rollback con = con.
Proof. unfold quiescent. destruct con; simpl; by intros ->. Qed.

Lemma executemany_None codes con con' :
  executemany codes con = (con', None) →
  con' = inserted codes con ∧ fresh_batch codes (point_code (pending con)).
Proof.
  revert con. induction codes as [|row codes IH]; intros con; simpl.
  - intros [= <-]. split.
    + unfold inserted, execute_point_code. simpl. rewrite app_nil_r.
      by destruct con as [? []].
    + split; [constructor | set_solver].
  - unfold sql_insert. case_decide as Hin; [done|]. intros Hex.
    apply IH in Hex as [-> [Hnd Hfresh]]. simpl in *. split.
    + unfold inserted, execute_point_code. simpl. by rewrite <-app_assoc.
    + split.
      * constructor; [|done]. intros Hrow. apply (Hfresh _ Hrow).
        rewrite fmap_app. set_solver.
      * intros c [->|Hc]%elem_of_cons; [done|].
        specialize (Hfresh _ Hc). rewrite fmap_app in Hfresh. set_solver.
Qed.

Lemma executemany_fresh codes con :
  fresh_batch codes (point_code (pending con)) →
  executemany codes con = (inserted codes con, None).
Proof.
  revert con. induction codes as [|row codes IH]; intros con [Hnd Hfresh].
  - simpl. unfold inserted, execute_point_code. simpl. rewrite app_nil_r.
    by destruct con as [? []].
  - simpl in *. apply NoDup_cons in Hnd as [Hrow Hnd].
    unfold sql_insert. rewrite decide_False by set_solver.
    rewrite IH.
    + unfold inserted, execute_point_code. simpl. by rewrite <-app_assoc.
    + split; [done|]. simpl. intros c Hc. rewrite fmap_app. set_solver.
Qed.

Lemma executemany_committed codes con :
  committed (executemany codes con).1 = committed con.
Proof.
  revert con. induction codes as [|row codes IH]; intros con; simpl; [done|].
  destruct (sql_insert _ _); [done|]. by rewrite IH.
Qed.

Lemma executemany_cases codes con :
  executemany codes con = (inserted codes con, None) ∧
    fresh_batch codes (point_code (pending con))
  ∨ (∃ con', executemany codes con = (con', Some IntegrityError) ∧
             committed con' = committed con) ∧
    ¬ fresh_batch codes (point_code (pending con)).
Proof.
  destruct (executemany codes con) as [con' [[]|]] eqn:Hex.
  - right. split.
    + exists con'. split; [done|].
      by rewrite <-(executemany_committed codes con), Hex.
    + intros Hfresh. apply executemany_fresh in Hfresh. congruence.
  - left. by apply executemany_None in Hex as [-> ?].
Qed.

Section issuance_facts.
Context {G : Type} (gen_code : G → string * G) (point amount : Z).



(** One iteration of the loop on a connection with nothing pending: the
    batch goes in whole and is committed, or the connection is back where
    it was and the loop goes round. *)
Lemma gen_point_code_S fuel g con :
  quiescent con →
  gen_point_code gen_code (S fuel) point amount g con =
  if decide (fresh_batch (batch gen_code point amount 0 g)
                         (point_code (pending con)))
  then Some (batch_state gen_code point amount 1 g,
             commit (inserted (batch gen_code point amount 0 g) con),
             (Some (batch gen_code point amount 0 g).*1, None))
  else gen_point_code gen_code fuel point amount
         (batch_state gen_code point amount 1 g) con.
Proof.
  intros Hq. unfold batch. simpl.
  destruct (gen_codes gen_code (Z.to_nat amount) point g) as [codes g1]. simpl.
  destruct (executemany_cases codes con)
    as [[-> Hfresh]|[(con' & -> & Hcom) Hfresh]].
  - by rewrite decide_True.
  - rewrite decide_False by done. f_equal.
    rewrite <-(rollback_quiescent con Hq).
    unfold rollback. by rewrite Hcom.
Qed.

Lemma batch_state_S k g :
  batch_state gen_code point amount (S k) g =
  batch_state gen_code point amount k (batch_state gen_code point amount 1 g).
Proof. done. Qed.

Lemma batch_S k g :
  batch gen_code point amount (S k) g =
  batch gen_code point amount k (batch_state gen_code point amount 1 g).
Proof. done. Qed.


(** When the loop ends, it ended at a first fresh batch. *)
Lemma gen_point_code_Some fuel g con g' con' res :
  quiescent con →
  gen_point_code gen_code fuel point amount g con = Some (g', con', res) →
  ∃ k, (k < fuel)%nat ∧
    fresh_batch (batch gen_code point amount k g) (point_code (pending con)) ∧
    (∀ j, (j < k)%nat →
          ¬ fresh_batch (batch gen_code point amount j g)
                        (point_code (pending con))) ∧
    g' = batch_state gen_code point amount (S k) g ∧
    con' = commit (inserted (batch gen_code point amount k g) con) ∧
    res = (Some (batch gen_code point amount k g).*1, None).
Proof.
  intros Hq. revert g. induction fuel as [|fuel IH]; intros g; [done|].
  rewrite gen_point_code_S by done. case_decide as Hfresh.
  - intros [= <- <- <-]. exists 0%nat.
    split_and!; [lia|done|intros; lia|done..].
  - intros (k & Hlt & Hk & Hbefore & -> & -> & ->)%IH.
    exists (S k). split_and!; [lia|done| |done..].
    intros [|j] Hj; [done|]. rewrite batch_S. apply Hbefore. lia.
Qed.

(** Whatever was pending before, the loop ends with nothing pending. *)
Lemma gen_point_code_quiescent fuel g con g' con' res :
  gen_point_code gen_code fuel point amount g con = Some (g', con', res) →
  quiescent con'.
Proof.
  revert g con. induction fuel as [|fuel IH]; intros g con; [done|]. simpl.
  destruct (gen_codes _ _ _ _) as [codes g1].
  destruct (executemany codes con) as [con1 [[]|]].
  - apply IH.
  - by intros [= <- <- <-].
Qed.
End issuance_facts.

(** ** Invariants of the transition system *)

Lemma sql_update_codes group c rows :
  code <$> sql_update group c rows = code <$> rows.
Proof.
  unfold sql_update. rewrite <-list_fmap_compose. apply list_fmap_ext.
  intros i r _. simpl. by case_decide.
Qed.

(** [get_group_point] commits, unless its query fails. *)
Lemma get_group_point_connection con :
  (get_group_point con).1 = con ∨ (get_group_point con).1 = commit con.
Proof.
  unfold get_group_point.
  destruct (sql_group_point _) as [msg|rows]; [by left|].
  destruct (foldl _ _ rows). by right.
Qed.

Lemma api_call_quiescent con con' :
  quiescent con → api_call con con' → quiescent con'.
Proof.
  intros Hq.
  destruct 1 as [G gen_code fuel p a g con g' con' res Hgen| | c group con
    |c con| | | | | |tasks con]; try done.
  - by eapply gen_point_code_quiescent.
  - rewrite use_point_code_eq.
    destruct (stored _ _); [case_bool_decide|]; done.
  - by destruct (delete_point_code_cases c con) as [-> | ->].
  - by destruct (get_group_point_connection con) as [-> | ->].
  - unfold get_group_selection_message_id. by destruct (fetchone _).
  - unfold get_scoreboard. by destruct (scoreboard_rows _ _ _).
Qed.

Lemma later_quiescent con con' : quiescent con → later con con' → quiescent con'.
Proof.
  intros Hq Hl. induction Hl as [|con1 con2 con3 Hcall _ IH]; [done|].
  apply IH. by eapply api_call_quiescent.
Qed.

(** The point codes a call leaves behind: the same, or one code updated, or
    a fresh batch appended. *)
Lemma api_call_point_code con con' :
  quiescent con → api_call con con' →
  let rows := point_code (pending con) in
  let rows' := point_code (pending con') in
  rows' = rows
  ∨ (∃ c group r, rows' = sql_update group c rows ∧
       stored c rows = Some r ∧ ¬ (used_by r > 0 ∨ used_by r = -1))
  ∨ (∃ c, rows' = sql_update (-1) c rows)
  ∨ (∃ codes, rows' = rows ++ (issued_row <$> codes) ∧ fresh_batch codes rows).
Proof.
  intros Hq.
  destruct 1 as [G gen_code fuel p a g con g' con' res Hgen| | c group con
    |c con| | | | | |tasks con]; simpl; auto.
  - apply gen_point_code_Some in Hgen
      as (k & _ & Hfresh & _ & _ & -> & _); [|done].
    do 3 right. by eexists.
  - rewrite use_point_code_eq.
    destruct (stored _ _) as [r|] eqn:Hst; [case_bool_decide|]; simpl; auto.
    right; left. by exists c, group, r.
  - destruct (delete_point_code_cases c con) as [-> | ->]; simpl; auto.
    do 2 right; left. by exists c.
  - destruct (get_group_point_connection con) as [-> | ->]; auto.
  - unfold get_group_selection_message_id. destruct (fetchone _); auto.
  - unfold get_scoreboard. destruct (scoreboard_rows _ _ _); auto.
Qed.

(** The PRIMARY KEY holds after every call. *)
Lemma api_call_primary_key con con' :
  quiescent con → api_call con con' →
  primary_key (point_code (pending con)) →
  primary_key (point_code (pending con')).
Proof.
  intros Hq Hcall Hpk. unfold primary_key in *.
  destruct (api_call_point_code con con' Hq Hcall)
    as [->|[(c & g & r & -> & _)|[(c & ->)|(codes & -> & Hnd & Hfresh)]]];
    rewrite ?sql_update_codes; try done.
  rewrite fmap_app. apply NoDup_app. split_and!; [done| |].
  - intros c Hc Hc'. apply (Hfresh c); [|done].
    by rewrite <-list_fmap_compose in Hc'.
  - by rewrite <-list_fmap_compose.
Qed.

(** A code that is redeemed or deleted stays so through every call. *)
Lemma api_call_spent c con con' :
  api_call con con' → spent c con → spent c con'.
Proof.
  intros Hcall [Hq (r & Hst & Hr)]. split; [by eapply api_call_quiescent|].
  destruct (api_call_point_code con con' Hq Hcall)
    as [->|[(c' & g & r' & -> & Hst' & Hr')|[(c' & ->)|(codes & -> & _)]]].
  - eauto.
  - destruct (decide (c = c')) as [<-|Hne]; [naive_solver|].
    rewrite stored_update_ne by done. eauto.
  - destruct (decide (c = c')) as [<-|Hne].
    + rewrite stored_update_eq, Hst. simpl. eauto.
    + rewrite stored_update_ne by done. eauto.
  - rewrite stored_app, Hst. eauto.
Qed.

Lemma later_spent c con con' : later con con' → spent c con → spent c con'.
Proof.
  induction 1 as [|con1 con2 con3 Hcall _ IH]; [done|].
  intros Hsp. apply IH. by eapply api_call_spent.
Qed.

Lemma spent_use_point_code c group con :
  spent c con → use_point_code c group con = (commit con, (None, Some "used")).
Proof.
  intros [_ (r & Hst & Hr)]. rewrite use_point_code_eq, Hst.
  by rewrite bool_decide_eq_true_2.
Qed.

Lemma primary_key_stored c rows r r' :
  primary_key rows → stored c rows = Some r → r' ∈ rows → code r' = c → r' = r.
Proof.
  unfold primary_key. induction rows as [|r0 rows IH]; [done|].
  rewrite fmap_cons, NoDup_cons, stored_cons. intros [Hr0 Hnd] Hst Hin Hc.
  apply elem_of_cons in Hin as [->|Hin].
  - rewrite decide_True in Hst by done. congruence.
  - case_decide as Hc0.
    + destruct Hr0. rewrite Hc0, <-Hc. by apply list_elem_of_fmap_2.
    + by apply IH.
Qed.

(** ** Redemption *)








(** ** Deletion *)

(** C5: [delete_point_code] succeeds only when a row with the given code and
    [used_by] = 0 is stored, and then sets [used_by] to -1; when the filtered
    lookup finds nothing (the code is not stored, or it is redeemed or
    deleted already) it fails with 'used' and changes nothing; after a
    successful delete every [use_point_code] on the code, after any number of
    later calls, fails with 'used'. *)
Theorem delete_point_code_soft_delete (c : string) (con : Connection) :
  let rows := point_code (pending con) in
  ((∃ r, r ∈ rows ∧ code r = c ∧ used_by r = 0) →
     ∃ con',
       delete_point_code c con = (con', (None, None)) ∧
       point_code (pending con') = sql_update (-1) c rows ∧
       (∀ r', r' ∈ point_code (pending con') → code r' = c → used_by r' = -1) ∧
       (∀ con'' group, later con' con'' →
          (use_point_code c group con'').2 = (None, Some "used")))
  ∧ ((delete_point_code c con).2 = (None, None) →
       ∃ r, r ∈ rows ∧ code r = c ∧ used_by r = 0)
  ∧ ((∀ r, r ∈ rows → code r = c → used_by r ≠ 0) →
       delete_point_code c con = (commit con, (None, Some "used")) ∧
       pending (delete_point_code c con).1 = pending con)
  ∧ (stored c rows = None →
       delete_point_code c con = (commit con, (None, Some "used")))
  ∧ (primary_key rows →
     ∀ r, stored c rows = Some r → used_by r > 0 ∨ used_by r = -1 →
       delete_point_code c con = (commit con, (None, Some "used"))).
Proof.
  intros rows. subst rows. split_and!.
  - intros (r & Hr & Hc & Hu).
    rewrite (delete_point_code_done c con r) by done.
    eexists. split; [done|]. simpl. split_and!; [done| |].
    + unfold sql_update. intros r' (r0 & -> & _)%list_elem_of_fmap.
      case_decide; simpl; [done|]. by intros ?.
    + intros con'' group Hlater.
      rewrite (spent_use_point_code c group con''); [done|].
      eapply later_spent; [done|]. split; [done|]. simpl.
      rewrite stored_update_eq.
      destruct (stored c (point_code (pending con))) as [r0|] eqn:Hst.
      * simpl. eauto.
      * apply stored_None in Hst. destruct Hst. rewrite <-Hc.
        by apply list_elem_of_fmap_2.
  - intros Hok.
    destruct (decide (Exists (λ r, code r = c ∧ used_by r = 0)
                        (point_code (pending con)))) as [Hex|Hnex].
    + apply Exists_exists in Hex. naive_solver.
    + rewrite delete_point_code_used in Hok; [done|].
      intros r Hr Hc Hu. apply Hnex, Exists_exists. eauto.
  - intros Hall. by rewrite delete_point_code_used.
  - intros Hst. apply delete_point_code_used. intros r Hr Hc.
    apply stored_None in Hst. destruct Hst. rewrite <-Hc.
    by apply list_elem_of_fmap_2.
  - intros Hpk r Hst Hu. apply delete_point_code_used. intros r' Hr' Hc.
    rewrite (primary_key_stored c _ r r') by done. lia.
Qed.

Lemma example_db_primary_key : primary_key (point_code example_db).
Proof. unfold primary_key. compute_done. Qed.

Lemma delete_point_code_soft_delete_witness :
  (∃ con', delete_point_code "BBBB" example_con = (con', (None, None)) ∧
     stored "BBBB" (point_code (pending con'))
       = Some {| code := "BBBB"; point := 7; used_by := -1 |} ∧
     (use_point_code "BBBB" 4
        (log_submission 4 "task" "guess" false con').1).2
       = (None, Some "used"))
  ∧ delete_point_code "ZZZZ" example_con
    = (commit example_con, (None, Some "used"))
  ∧ delete_point_code "AAAA" example_con
    = (commit example_con, (None, Some "used"))
  ∧ delete_point_code "CCCC" example_con
    = (commit example_con, (None, Some "used")).
Proof.
  split_and!.
  - destruct (delete_point_code_soft_delete "BBBB" example_con)
      as (H & _ & _ & _ & _).
    destruct H as (con' & Hcall & Hrows & _ & Hlater).
    { exists {| code := "BBBB"; point := 7; used_by := 0 |}.
      split_and!; [|reflexivity..]. right; left. }
    exists con'. split_and!; [exact Hcall | by rewrite Hrows |].
    apply Hlater. apply rtc_once. apply call_log_submission.
  - destruct (delete_point_code_soft_delete "ZZZZ" example_con)
      as (_ & _ & _ & H & _).
    apply H. reflexivity.
  - destruct (delete_point_code_soft_delete "AAAA" example_con)
      as (_ & _ & _ & _ & H).
    apply (H example_db_primary_key
             {| code := "AAAA"; point := 100; used_by := 3 |});
      [reflexivity | left; reflexivity].
  - destruct (delete_point_code_soft_delete "CCCC" example_con)
      as (_ & _ & _ & _ & H).
    apply (H example_db_primary_key
             {| code := "CCCC"; point := 70; used_by := -1 |});
      [reflexivity | right; reflexivity].
Defined.

(** ** Issuance *)






(** ** Attempt statistics *)

Lemma coalesce_sql_sum xs : coalesce (sql_sum xs) 0 = sum_Z xs.
Proof. by destruct xs. Qed.

Lemma sum_is_correct_eq (b : bool) (rows : list Submission) :
  sum_Z (is_correct_eq (Z.b2z b) <$> rows) =
  Z.of_nat (length (filter (λ r, is_correct r = b) rows)).
Proof.
  induction rows as [|r rows IH]; [done|].
  rewrite fmap_cons, filter_cons. unfold sum_Z in *. simpl. rewrite IH.
  unfold is_correct_eq.
  destruct (is_correct r), b; simpl; repeat case_decide; simpl; try done; lia.
Qed.

Lemma get_submissions_statistics_eq g t con :
  get_submissions_statistics g t con =
  (commit con,
   (Some (Z.of_nat (length (filter (λ r, is_correct r = true)
                              (attempts g t (submissions (pending con))))),
          Z.of_nat (length (filter (λ r, is_correct r = false)
                              (attempts g t (submissions (pending con)))))),
    None)).
Proof.
  unfold get_submissions_statistics, sql_statistics, fetchone. simpl.
  rewrite !coalesce_sql_sum.
  by rewrite (sum_is_correct_eq true), (sum_is_correct_eq false).
Qed.



(** ** Ranking *)

Lemma sql_group_by_lookup `{Countable K} {A} (key : A → K) (rows : list A) k :
  sql_group_by key rows !! k =
  match filter (λ r, key r = k) rows with
  | [] => None
  | group => Some group
  end.
Proof.
  induction rows as [|r rows IH]; [done|].
  unfold sql_group_by in *. simpl. rewrite filter_cons, lookup_insert.
  case_decide as Hk.
  - subst k. rewrite IH. by destruct (filter _ rows).
  - exact IH.
Qed.

#[global] Instance ranks_before_total : Total ranks_before.
Proof. intros [g1 p1] [g2 p2]. unfold ranks_before. simpl. lia. Qed.

#[global] Instance ranks_before_trans : Transitive ranks_before.
Proof. intros [g1 p1] [g2 p2] [g3 p3]. unfold ranks_before. simpl. lia. Qed.

Lemma ranked_totals_fst rows :
  (ranked_totals rows).*1 ≡ₚ
  (map_to_list (sql_group_by used_by (filter (λ r, used_by r > 0) rows))).*1.
Proof.
  unfold ranked_totals. rewrite merge_sort_Permutation.
  generalize (map_to_list
    (sql_group_by used_by (filter (λ r, used_by r > 0) rows))).
  intros l. induction l as [|[g group] l IH]; [done|].
  rewrite !fmap_cons. simpl. by rewrite IH.
Qed.

Lemma elem_of_ranked_totals rows g t :
  (g, t) ∈ ranked_totals rows ↔
  g > 0 ∧ g ∈ used_by <$> rows ∧
  t = sum_Z (point <$> filter (λ r, used_by r = g) rows).
Proof.
  unfold ranked_totals. rewrite merge_sort_Permutation.
  rewrite list_elem_of_fmap. split.
  - intros ([g' group] & [= -> ->] & Hin).
    apply elem_of_map_to_list in Hin. rewrite sql_group_by_lookup in Hin.
    destruct (filter _ (filter _ rows)) as [|r group'] eqn:Hf; [done|].
    simplify_eq.
    assert (r ∈ filter (λ r, used_by r = g') (filter (λ r, used_by r > 0) rows))
      as Hr by (rewrite Hf; left).
    apply list_elem_of_filter in Hr as [Hg Hr].
    apply list_elem_of_filter in Hr as [Hpos Hr].
    split_and!; [lia| |].
    + rewrite <-Hg. by apply list_elem_of_fmap_2.
    + rewrite <-Hf. rewrite list_filter_filter_l; [done|]. intros; lia.
  - intros (Hpos & (r & -> & Hr)%list_elem_of_fmap & ->).
    exists (used_by r, filter (λ r', used_by r' = used_by r) rows).
    split; [done|]. apply elem_of_map_to_list. rewrite sql_group_by_lookup.
    rewrite list_filter_filter_l by (intros; lia).
    destruct (filter _ rows) as [|r0 group] eqn:Hf; [|done].
    assert (r ∈ filter (λ r', used_by r' = used_by r) rows) as Hin
      by (by apply list_elem_of_filter).
    rewrite Hf in Hin. by apply elem_of_nil in Hin.
Qed.

Lemma StronglySorted_strict (l : list (Z * Z)) :
  StronglySorted ranks_before l → NoDup l.*1 →
  StronglySorted (λ a b, b.2 < a.2 ∨ (b.2 = a.2 ∧ a.1 < b.1)) l.
Proof.
  induction 1 as [|a l Hsorted IH Hall]; [constructor|].
  rewrite fmap_cons, NoDup_cons. intros [Ha Hnd].
  constructor; [by apply IH|].
  rewrite Forall_forall in *. intros b Hb.
  destruct (Hall b Hb) as [?|[? ?]]; [by left|]. right. split; [done|].
  assert (a.1 ≠ b.1); [|lia].
  intros Heq. apply Ha. rewrite Heq. by apply list_elem_of_fmap_2.
Qed.

(** The two loops of [get_group_point]. *)
Lemma get_group_point_collect (rows res : list (Z * Z)) (groups : gset Z) :
  foldl (λ '(res, groups) row, (res ++ [row], groups ∪ {[ row.1 ]}))
        (res, groups) rows =
  (res ++ rows, groups ∪ list_to_set rows.*1).
Proof.
  revert res groups. induction rows as [|row rows IH]; intros res groups; simpl.
  - rewrite app_nil_r. f_equal. set_solver.
  - rewrite IH, <-app_assoc. f_equal. set_solver.
Qed.

Lemma get_group_point_pad (groups : gset Z) (res : list (Z * Z)) (ids : list Z) :
  foldl (λ res i, if decide (i ∉ groups) then res ++ [(i, 0)] else res) res ids =
  res ++ ((λ i, (i, 0)) <$> filter (λ i, i ∉ groups) ids).
Proof.
  revert res. induction ids as [|i ids IH]; intros res; simpl.
  - by rewrite app_nil_r.
  - rewrite IH, filter_cons. case_decide; [|done].
    by rewrite fmap_cons, <-app_assoc.
Qed.

(** The SUM of SQLite against the sum without bound. *)
Lemma sql_sum_integer_from_Some acc xs s :
  sql_sum_integer_from acc xs = Some s ↔
  s = acc + sum_Z xs ∧
  ∀ n, (0 < n ≤ length xs)%nat → in_int64 (acc + sum_Z (take n xs)).
Proof.
  revert acc. induction xs as [|x xs IH]; intros acc.
  - cbn [sql_sum_integer_from length take]. unfold sum_Z. cbn [foldr]. split.
    + intros [= <-]. split; [lia|]. intros n ?; lia.
    + intros [-> _]. f_equal. lia.
  - cbn [sql_sum_integer_from length]. case_decide as Hx.
    + rewrite IH. split.
      * intros [-> Hall]. split; [unfold sum_Z; cbn [foldr]; lia|].
        intros [|n] Hn; [lia|]. cbn [take].
        destruct n as [|n].
        -- rewrite take_0. unfold sum_Z. cbn [foldr]. by rewrite Z.add_0_r.
        -- specialize (Hall (S n)). unfold sum_Z in *. cbn [foldr].
           rewrite Z.add_assoc. apply Hall. lia.
      * intros [-> Hall]. split; [unfold sum_Z; cbn [foldr]; lia|]. intros n Hn.
        specialize (Hall (S n)). cbn [take] in Hall. unfold sum_Z in *.
        cbn [foldr] in Hall. rewrite Z.add_assoc in Hall. apply Hall. lia.
    + split; [done|]. intros [_ Hall]. destruct Hx.
      specialize (Hall 1%nat). cbn [take] in Hall. rewrite take_0 in Hall.
      unfold sum_Z in Hall. cbn [foldr] in Hall. rewrite Z.add_0_r in Hall.
      apply Hall. lia.
Qed.

Lemma sql_sum_integer_Some xs s :
  sql_sum_integer xs = Some s ↔
  s = sum_Z xs ∧ ∀ n, in_int64 (sum_Z (take n xs)).
Proof.
  unfold sql_sum_integer. rewrite sql_sum_integer_from_Some. simpl.
  apply and_iff_compat_l. split.
  - intros Hall n. destruct (decide (n = 0)%nat) as [->|Hn0].
    { rewrite take_0. unfold in_int64, sum_Z. simpl. lia. }
    destruct (decide (n ≤ length xs)%nat) as [Hn|Hn]; [apply Hall; lia|].
    rewrite take_ge by lia. destruct xs as [|x xs'].
    { unfold in_int64, sum_Z. simpl. lia. }
    rewrite <-(firstn_all (x :: xs')). apply Hall. simpl. lia.
  - intros Hall n _. apply Hall.
Qed.

Lemma sql_sum_integer_cases xs :
  sql_sum_integer xs = Some (sum_Z xs) ∧
    (∀ n, in_int64 (sum_Z (take n xs)))
  ∨ sql_sum_integer xs = None ∧ ¬ (∀ n, in_int64 (sum_Z (take n xs))).
Proof.
  destruct (sql_sum_integer xs) as [s|] eqn:Hs.
  - apply sql_sum_integer_Some in Hs as [-> ?]. by left.
  - right. split; [done|]. intros Hall.
    assert (sql_sum_integer xs = Some (sum_Z xs)) as Hs'
      by (by apply sql_sum_integer_Some).
    congruence.
Qed.

(** The groups of the query: the groups greater than 0 that a row has as
    [used_by], each with all the rows that have it. *)
Lemma elem_of_redeemed_groups rows g group :
  (g, group) ∈ map_to_list
                 (sql_group_by used_by (filter (λ r, used_by r > 0) rows)) →
  g > 0 ∧ group = filter (λ r, used_by r = g) rows.
Proof.
  intros Hin. apply elem_of_map_to_list in Hin.
  rewrite sql_group_by_lookup in Hin.
  destruct (filter _ (filter _ rows)) as [|r group'] eqn:Hf; [done|].
  simplify_eq.
  assert (r ∈ filter (λ r, used_by r = g) (filter (λ r, used_by r > 0) rows))
    as Hr by (rewrite Hf; left).
  apply list_elem_of_filter in Hr as [Hg Hr].
  apply list_elem_of_filter in Hr as [Hpos Hr].
  split; [lia|]. rewrite <-Hf.
  rewrite list_filter_filter_l; [done|]. intros; lia.
Qed.

(** The query raises exactly when a running sum leaves 64 bits, and
    otherwise returns the groups with their sums, in order. *)
Lemma sql_group_total_cases g rs :
  sql_group_total (g, rs) = Some (g, sum_Z (point <$> rs)) ∧
    (∀ n, in_int64 (sum_Z (take n (point <$> rs))))
  ∨ sql_group_total (g, rs) = None ∧
    ¬ (∀ n, in_int64 (sum_Z (take n (point <$> rs)))).
Proof.
  unfold sql_group_total. simpl.
  destruct (sql_sum_integer_cases (point <$> rs)) as [[-> ?]|[-> ?]];
    [by left|by right].
Qed.

Lemma sql_group_point_cases rows :
  sums_fit rows ∧ sql_group_point rows = inr (ranked_totals rows)
  ∨ ¬ sums_fit rows ∧ sql_group_point rows = inl "integer overflow".
Proof.
  unfold sql_group_point, ranked_totals.
  set (grouped := map_to_list
         (sql_group_by used_by (filter (λ r, used_by r > 0) rows))).
  assert (∀ g group, (g, group) ∈ grouped →
            g > 0 ∧ group = filter (λ r, used_by r = g) rows) as Hgroups
    by apply elem_of_redeemed_groups.
  destruct (mapM sql_group_total grouped) as [totals|] eqn:Hm.
  - left.
    assert (sums_fit rows) as Hfit.
    { intros g n Hg.
      destruct (filter (λ r, used_by r = g) rows) as [|r group] eqn:Hf.
      { rewrite fmap_nil, take_nil. unfold in_int64, sum_Z. simpl. lia. }
      assert ((g, r :: group) ∈ grouped) as Hin.
      { apply elem_of_map_to_list. rewrite sql_group_by_lookup.
        rewrite list_filter_filter_l by (intros; lia). by rewrite Hf. }
      assert (is_Some (sql_group_total (g, r :: group))) as [y Hy].
      { assert (is_Some (mapM sql_group_total grouped)) as Hsome
          by (by eexists).
        apply mapM_is_Some in Hsome. rewrite Forall_forall in Hsome.
        by apply (Hsome (g, r :: group)). }
      destruct (sql_group_total_cases g (r :: group))
        as [[_ Hall]|[Hnone _]]; [apply Hall|congruence]. }
    split; [done|]. f_equal. f_equal.
    assert (mapM sql_group_total grouped
            = Some ((λ '(g, rs), (g, sum_Z (point <$> rs))) <$> grouped))
      as Hexact; [|congruence].
    apply mapM_Some. apply Forall2_fmap_r, Forall_Forall2_diag.
    apply Forall_forall. intros [g group] Hin.
    destruct (Hgroups g group Hin) as [Hg ->].
    destruct (sql_group_total_cases g (filter (λ r, used_by r = g) rows))
      as [[-> _]|[_ Hnot]]; [done|].
    destruct Hnot. intros n. by apply Hfit.
  - right. split; [|done]. intros Hfit.
    apply mapM_None, Exists_exists in Hm as ([g group] & Hin & Hnone).
    destruct (Hgroups g group Hin) as [Hg ->].
    destruct (sql_group_total_cases g (filter (λ r, used_by r = g) rows))
      as [[Hsome _]|[_ Hnot]]; [congruence|].
    apply Hnot. intros n. by apply Hfit.
Qed.

(** The result of [get_group_point] is a function of the result of its
    query. *)
Lemma get_group_point_result con con' :
  sql_group_point (point_code (pending con)) =
  sql_group_point (point_code (pending con')) →
  (get_group_point con).2 = (get_group_point con').2.
Proof.
  unfold get_group_point. intros ->.
  destruct (sql_group_point _) as [msg|rows]; [done|].
  by destruct (foldl _ _ rows).
Qed.

Lemma get_group_point_cases con :
  sums_fit (point_code (pending con)) ∧
    get_group_point con =
    (commit con,
     (Some (ranked_totals (point_code (pending con)) ++
            padding (ranked_totals (point_code (pending con)))),
      None))
  ∨ ¬ sums_fit (point_code (pending con)) ∧
    get_group_point con = (con, (None, Some "integer overflow")).
Proof.
  unfold get_group_point, padding.
  destruct (sql_group_point_cases (point_code (pending con)))
    as [[Hfit ->]|[Hfit ->]]; [left|by right].
  split; [done|]. rewrite get_group_point_collect.
  rewrite get_group_point_pad. simpl. do 5 f_equal.
  apply list_filter_iff. intros i. set_solver.
Qed.

(** What a returned list is. *)
Lemma get_group_point_Some con res :
  (get_group_point con).2 = (Some res, None) →
  sums_fit (point_code (pending con)) ∧
  res = ranked_totals (point_code (pending con)) ++
        padding (ranked_totals (point_code (pending con))).
Proof.
  destruct (get_group_point_cases con) as [[Hfit ->]|[_ ->]]; [|done].
  simpl. by intros [= <-].
Qed.

Lemma filter_ext_elem_of {A} (P1 P2 : A → Prop)
    `{!∀ x, Decision (P1 x), !∀ x, Decision (P2 x)} (l : list A) :
  (∀ x, x ∈ l → P1 x ↔ P2 x) → filter P1 l = filter P2 l.
Proof.
  induction l as [|a l IH]; [done|]. intros Hext.
  rewrite !filter_cons, IH by (intros; apply Hext; by right).
  apply decide_ext, Hext. left.
Qed.

(** The padding takes the groups of 1..9 that redeemed nothing. *)
Lemma padding_ranked_totals rows :
  padding (ranked_totals rows) =
  (λ i, (i, 0)) <$> filter (λ i, i ∉ used_by <$> rows) (seqZ 1 9).
Proof.
  unfold padding. f_equal.
  apply filter_ext_elem_of. intros i Hi%elem_of_seqZ. split.
  - intros Hnot Hin. apply Hnot. apply list_elem_of_fmap.
    exists (i, sum_Z (point <$> filter (λ r, used_by r = i) rows)).
    split; [done|]. apply elem_of_ranked_totals. split_and!; [lia|done..].
  - intros Hnot ([g t] & -> & Hin)%list_elem_of_fmap.
    by apply elem_of_ranked_totals in Hin as (_ & ? & _).
Qed.

(** Points that are not negative and add up to less than 2^63 never
    overflow. *)
Lemma sum_Z_take_nonneg xs n :
  Forall (λ x, 0 ≤ x) xs → 0 ≤ sum_Z (take n xs) ≤ sum_Z xs.
Proof.
  intros Hall. revert n. unfold sum_Z.
  induction Hall as [|x xs Hx Hall IH]; intros n.
  - rewrite take_nil. simpl. lia.
  - destruct n as [|n].
    + specialize (IH 0%nat). rewrite take_0 in *. simpl in *. lia.
    + specialize (IH n). cbn [take foldr]. cbn [foldr] in IH. lia.
Qed.

Lemma sums_fit_nonneg rows :
  (∀ r, r ∈ rows → 0 ≤ point r) →
  sum_Z (point <$> rows) < 2 ^ 63 →
  sums_fit rows.
Proof.
  intros Hpos Hsum g n _.
  assert (∀ (P : CodePoint → Prop) `{!∀ r, Decision (P r)} l,
            (∀ r, r ∈ l → 0 ≤ point r) →
            Forall (λ x, 0 ≤ x) (point <$> filter P l) ∧
            sum_Z (point <$> filter P l) ≤ sum_Z (point <$> l)) as Hfilter.
  { intros P HP l. induction l as [|r l IH]; intros Hl.
    - split; [constructor|done].
    - destruct IH as [IH1 IH2]; [intros; apply Hl; by right|].
      assert (0 ≤ point r) by (apply Hl; left).
      rewrite filter_cons. unfold sum_Z in *.
      case_decide; rewrite ?fmap_cons; cbn [foldr]; (split; [|lia]).
      * by constructor.
      * done. }
  destruct (Hfilter (λ r, used_by r = g) _ rows Hpos) as [Hall Hle].
  pose proof (sum_Z_take_nonneg _ n Hall). unfold in_int64. lia.
Qed.

(** C4 (as amended): while no running sum of a group's points leaves 64
    bits, [get_group_point] returns the pairs (group, total) of the groups
    greater than 0 that some row has as [used_by], the total being the sum of
    [point] over the rows with that [used_by], each group once, ordered by
    total descending and then by group ascending, followed by (i, 0) for
    every i of 1..9 that no row has as [used_by]; a group outside 1..9 is in
    the first part and never in the padding.  When a running sum leaves 64
    bits it returns no list and the error 'integer overflow', and commits
    nothing.  In both cases the rows with [used_by] = -1 change nothing. *)
Theorem get_group_point_ranking (con : Connection) :
  let rows := point_code (pending con) in
  let points g := point <$> filter (λ r, used_by r = g) rows in
  let fits :=
    ∀ g n, g > 0 → - 2 ^ 63 ≤ foldr Z.add 0 (take n (points g)) < 2 ^ 63 in
  (fits →
   ∃ ranked,
     (get_group_point con).2 =
       (Some (ranked ++
              ((λ i, (i, 0)) <$> filter (λ i, i ∉ used_by <$> rows) (seqZ 1 9))),
        None)
     ∧ (∀ g t, (g, t) ∈ ranked ↔
               g > 0 ∧ g ∈ used_by <$> rows ∧ t = foldr Z.add 0 (points g))
     ∧ NoDup ranked.*1
     ∧ StronglySorted (λ a b, b.2 < a.2 ∨ (b.2 = a.2 ∧ a.1 < b.1)) ranked)
  ∧ (¬ fits → get_group_point con = (con, (None, Some "integer overflow")))
  ∧ (get_group_point
       (execute_point_code (filter (λ r, used_by r ≠ -1)) con)).2 =
    (get_group_point con).2.
Proof.
  intros rows points fits. subst rows points fits.
  change (∀ g n, g > 0 →
            - 2 ^ 63 ≤ foldr Z.add 0
                         (take n (point <$> filter (λ r, used_by r = g)
                                              (point_code (pending con))))
            < 2 ^ 63)
    with (sums_fit (point_code (pending con))).
  split_and!.
  - intros Hfit. exists (ranked_totals (point_code (pending con))).
    assert (NoDup (ranked_totals (point_code (pending con))).*1) as Hnd.
    { rewrite ranked_totals_fst. apply NoDup_fst_map_to_list. }
    split_and!.
    + destruct (get_group_point_cases con) as [[_ ->]|[? _]]; [|done].
      simpl. by rewrite padding_ranked_totals.
    + apply elem_of_ranked_totals.
    + done.
    + apply StronglySorted_strict; [|done].
      unfold ranked_totals. apply (StronglySorted_merge_sort _).
  - intros Hfit. by destruct (get_group_point_cases con) as [[? _]|[_ ->]].
  - apply get_group_point_result. simpl. unfold sql_group_point.
    rewrite list_filter_filter_l; [done|]. intros; lia.
Qed.

Lemma get_group_point_ranking_witness :
  ∃ ranked,
    (get_group_point example_con).2 =
      (Some (ranked ++ [(1, 0); (2, 0); (4, 0); (5, 0); (6, 0); (7, 0);
                        (8, 0); (9, 0)]), None)
    ∧ (3, 100) ∈ ranked.
Proof.
  destruct (get_group_point_ranking example_con) as (Hfit & _ & _).
  destruct Hfit as (ranked & Hres & Hin & _).
  - apply (sums_fit_nonneg (point_code (pending example_con))).
    + intros r Hr. simpl in Hr.
      repeat (apply elem_of_cons in Hr as [->|Hr]);
        [..|by apply elem_of_nil in Hr]; simpl; lia.
    + by vm_compute.
  - exists ranked. split; [exact Hres|].
    apply Hin. split_and!; [lia| |reflexivity]. left.
Defined.

(** C4, the claim as stated fails: when the points a group redeemed add up
    past 64 bits, the SUM of the query raises and [get_group_point] returns
    no list. *)
Lemma get_group_point_overflow :
  (∀ r, r ∈ point_code (pending overflow_con) →
        used_by r = 1 ∧ - 2 ^ 63 ≤ point r < 2 ^ 63)
  ∧ (get_group_point overflow_con).2 = (None, Some "integer overflow").
Proof.
  split; [|by vm_compute].
  intros r Hr. simpl in Hr.
  repeat (apply elem_of_cons in Hr as [->|Hr]); [..|by apply elem_of_nil in Hr];
    simpl; lia.
Qed.

(** ** Scoreboard: the query *)

Lemma attempts_key g t rows :
  filter (λ r : Submission, (group_id r, task_id r) = (g, t)) rows =
  attempts g t rows.
Proof. unfold attempts. apply list_filter_iff. naive_solver. Qed.

Lemma elem_of_sql_scoreboard rows g t s f :
  (g, t, s, f) ∈ sql_scoreboard rows ↔
  attempts g t rows ≠ [] ∧
  s = Z.of_nat (length (filter (λ r, is_correct r = true) (attempts g t rows))) ∧
  f = Z.of_nat (length (filter (λ r, is_correct r = false) (attempts g t rows))).
Proof.
  unfold sql_scoreboard. rewrite list_elem_of_fmap.
  rewrite <-(sum_is_correct_eq true), <-(sum_is_correct_eq false).
  rewrite <-!coalesce_sql_sum, <-attempts_key. simpl. split.
  - intros ([[g' t'] group] & [= -> -> -> ->] & Hin).
    apply elem_of_map_to_list in Hin. rewrite sql_group_by_lookup in Hin.
    simpl. destruct (filter _ rows); [done|]. by simplify_eq.
  - intros (Hne & -> & ->).
    exists ((g, t), filter (λ r, (group_id r, task_id r) = (g, t)) rows).
    split; [done|]. apply elem_of_map_to_list. rewrite sql_group_by_lookup.
    by destruct (filter _ rows).
Qed.

Lemma sql_scoreboard_keys rows :
  NoDup ((λ row : Z * string * Z * Z, (row.1.1.1, row.1.1.2))
           <$> sql_scoreboard rows).
Proof.
  unfold sql_scoreboard. rewrite <-list_fmap_compose.
  pose proof (NoDup_fst_map_to_list
    (sql_group_by (λ r, (group_id r, task_id r)) rows)) as Hnd.
  revert Hnd. generalize (map_to_list
    (sql_group_by (λ r, (group_id r, task_id r)) rows)).
  intros l. induction l as [|[[g t] group] l IH]; [done|].
  rewrite !fmap_cons, !NoDup_cons. simpl. intros [Hk Hnd]. split; [|auto].
  intros ([[g' t'] group'] & [= -> ->] & Hin)%list_elem_of_fmap.
  apply Hk, list_elem_of_fmap. by exists (g', t', group').
Qed.

Lemma attempts_nil g t rows :
  attempts g t rows = [] ↔ ∀ r, r ∈ rows → ¬ (group_id r = g ∧ task_id r = t).
Proof.
  unfold attempts. split.
  - intros Hnil r Hr Hgt.
    assert (r ∈ filter (λ r, group_id r = g ∧ task_id r = t) rows) as Hin
      by (by apply list_elem_of_filter).
    rewrite Hnil in Hin. by apply elem_of_nil in Hin.
  - intros Hall. destruct (filter _ rows) as [|r l] eqn:Hf; [done|].
    assert (r ∈ filter (λ r, group_id r = g ∧ task_id r = t) rows) as Hin
      by (rewrite Hf; left).
    apply list_elem_of_filter in Hin as [? ?]. by destruct (Hall r).
Qed.

(** ** Scoreboard: the table *)

Lemma foldl_insert_lookup `{Countable K} {A V} (key : A → K) (v : V)
    (l : list A) (m : gmap K V) k :
  foldl (λ m x, <[key x := v]> m) m l !! k =
  if decide (k ∈ key <$> l) then Some v else m !! k.
Proof.
  revert m. induction l as [|x l IH]; intros m.
  - rewrite fmap_nil, decide_False; [done|]. apply not_elem_of_nil.
  - rewrite fmap_cons. simpl foldl. rewrite IH. destruct (decide (k ∈ key <$> l)) as [Hin|Hnin].
    + rewrite decide_True; [done|]. by right.
    + rewrite lookup_insert. destruct (decide (key x = k)) as [<-|Hne].
      * rewrite decide_True; [done|]. left.
      * rewrite decide_False; [done|]. rewrite not_elem_of_cons. naive_solver.
Qed.

Lemma scoreboard_init_lookup tasks g :
  scoreboard_init tasks !! g =
  if decide (1 ≤ g ≤ 9)
  then Some (foldl (λ inner task, <[task.task_id task := 0]> inner) ∅ tasks)
  else None.
Proof.
  unfold scoreboard_init.
  rewrite (foldl_insert_lookup (λ i : Z, i)), list_fmap_id.
  apply decide_ext. rewrite elem_of_seqZ. lia.
Qed.

Lemma scoreboard_init_entry tasks g t :
  entry (scoreboard_init tasks) g t =
  if decide (1 ≤ g ≤ 9 ∧ t ∈ task.task_id <$> tasks) then Some 0 else None.
Proof.
  unfold entry. rewrite scoreboard_init_lookup.
  destruct (decide (1 ≤ g ≤ 9)); simpl.
  - rewrite foldl_insert_lookup, lookup_empty. apply decide_ext. naive_solver.
  - rewrite decide_False; [done|]. naive_solver.
Qed.

Lemma get_task_by_id_Some cat t task :
  task.get_task_by_id cat t = Some task →
  task ∈ cat ∧ task.task_id task = t.
Proof.
  unfold task.get_task_by_id. intros Hhd.
  assert (task ∈ filter (λ t', task.task_id t' = t) cat) as Hin.
  { destruct (filter _ cat); simplify_eq/=. left. }
  by apply list_elem_of_filter in Hin as [? ?].
Qed.

Lemma get_task_by_id_is_Some cat t :
  is_Some (task.get_task_by_id cat t) ↔ t ∈ task.task_id <$> cat.
Proof.
  split.
  - intros [task [Hin <-]%get_task_by_id_Some]. by apply list_elem_of_fmap_2.
  - intros (task & -> & Hin)%list_elem_of_fmap. unfold task.get_task_by_id.
    destruct (filter _ cat) as [|task' l] eqn:Hf; [|by eexists].
    assert (task ∈ filter (λ t', task.task_id t' = task.task_id task) cat)
      as Hin' by (by apply list_elem_of_filter).
    rewrite Hf in Hin'. by apply elem_of_nil in Hin'.
Qed.

Lemma entry_insert (table : gmap Z (gmap string Z)) g0 t0 v inner g t :
  table !! g0 = Some inner →
  entry (<[g0 := <[t0 := v]> inner]> table) g t =
  if decide (g = g0 ∧ t = t0) then Some v else entry table g t.
Proof.
  intros Hg0. unfold entry. rewrite lookup_insert.
  destruct (decide (g0 = g)) as [<-|Hg]; simpl.
  - rewrite Hg0. simpl. rewrite lookup_insert.
    destruct (decide (t0 = t)) as [<-|Ht].
    + by rewrite decide_True.
    + rewrite decide_False; [done|]. naive_solver.
  - rewrite decide_False; [done|]. naive_solver.
Qed.

(** ** Scoreboard: the loop *)

Section scoreboard_loop.
Context (cat : list task.Task).
Implicit Types (table : gmap Z (gmap string Z)).
Implicit Types (rows : list (Z * string * Z * Z)).

Notation key := (λ row : Z * string * Z * Z, (row.1.1.1, row.1.1.2)).

Lemma scoreboard_rows_cons row rows table :
  scoreboard_rows cat (row :: rows) table =
  match scoreboard_row cat row table with
  | Return table' => scoreboard_rows cat rows table'
  | Raise e => Raise e
  end.
Proof. done. Qed.

Lemma scoreboard_row_Return g t s f table table' :
  scoreboard_row cat (g, t, s, f) table = Return table' ↔
  ∃ task inner,
    task.get_task_by_id cat t = Some task ∧ table !! g = Some inner ∧
    table' = <[g := <[t := row_status task s f]> inner]> table.
Proof.
  unfold scoreboard_row.
  destruct (task.get_task_by_id cat t) as [task|]; [|naive_solver].
  destruct (table !! g) as [inner|]; naive_solver.
Qed.

Lemma scoreboard_row_Raise g t s f table e :
  scoreboard_row cat (g, t, s, f) table = Raise e ↔
  task.get_task_by_id cat t = None ∧ e = TypeError
  ∨ is_Some (task.get_task_by_id cat t) ∧ table !! g = None ∧ e = KeyError.
Proof.
  unfold scoreboard_row.
  destruct (task.get_task_by_id cat t) as [task|].
  - destruct (table !! g) as [inner|]; [naive_solver|].
    split; [intros [= <-]; eauto|naive_solver].
  - split; [intros [= <-]; eauto|]. intros [[_ ->]|[[? [=]] _]]. done.
Qed.

(** What the loop leaves in the table when every row passes. *)
Lemma scoreboard_rows_Return rows table :
  NoDup (key <$> rows) →
  (∀ g t s f, (g, t, s, f) ∈ rows →
     is_Some (task.get_task_by_id cat t) ∧ is_Some (table !! g)) →
  ∃ table',
    scoreboard_rows cat rows table = Return table' ∧
    (∀ g t s f task, (g, t, s, f) ∈ rows →
       task.get_task_by_id cat t = Some task →
       entry table' g t = Some (row_status task s f)) ∧
    (∀ g t, (g, t) ∉ key <$> rows → entry table' g t = entry table g t).
Proof.
  revert table. induction rows as [|[[[g0 t0] s0] f0] rows IH]; intros table.
  - intros _ _. exists table. split_and!; [done| |done].
    intros ????? Hin. by apply elem_of_nil in Hin.
  - rewrite fmap_cons, NoDup_cons. intros [Hkey Hnd] Hok.
    destruct (Hok g0 t0 s0 f0) as [[task0 Htask0] [inner0 Hinner0]]; [left|].
    assert (scoreboard_row cat (g0, t0, s0, f0) table =
            Return (<[g0 := <[t0 := row_status task0 s0 f0]> inner0]> table))
      as Hrow by (apply scoreboard_row_Return; eauto).
    rewrite scoreboard_rows_cons, Hrow.
    destruct (IH (<[g0 := <[t0 := row_status task0 s0 f0]> inner0]> table))
      as (table' & -> & Hin & Hout); [done| |].
    { intros g t s f Hrows. destruct (Hok g t s f) as [? ?]; [by right|].
      split; [done|]. rewrite lookup_insert_is_Some.
      destruct (decide (g0 = g)); [by left|by right]. }
    exists table'. split_and!; [done| |].
    + intros g t s f task [[= -> -> -> ->]|Hrows]%elem_of_cons Htask.
      * rewrite Hout by done. rewrite (entry_insert _ _ _ _ inner0) by done.
        rewrite decide_True by done. congruence.
      * by eapply Hin.
    + intros g t [Hne Hnin]%not_elem_of_cons. rewrite Hout by done.
      rewrite (entry_insert _ _ _ _ inner0) by done.
      rewrite decide_False; [done|]. naive_solver.
Qed.

(** The loop keeps the groups of the table. *)
Lemma scoreboard_rows_groups rows table table' :
  scoreboard_rows cat rows table = Return table' → dom table' = dom table.
Proof.
  revert table. induction rows as [|[[[g t] s] f] rows IH]; intros table.
  - by intros [= ->].
  - rewrite scoreboard_rows_cons.
    destruct (scoreboard_row cat (g, t, s, f) table) as [table1|] eqn:Hrow;
      [|done].
    apply scoreboard_row_Return in Hrow as (task & inner & _ & Hg & ->).
    intros ->%IH. rewrite dom_insert_L.
    apply (elem_of_dom_2 (D:=gset Z)) in Hg. set_solver.
Qed.

(** The loop keeps the tasks of every group, when they are the catalog's. *)
Lemma scoreboard_rows_tasks rows table table' (tasks : gset string) :
  scoreboard_rows cat rows table = Return table' →
  tasks = list_to_set (task.task_id <$> cat) →
  (∀ g inner, table !! g = Some inner → dom inner = tasks) →
  (∀ g inner, table' !! g = Some inner → dom inner = tasks).
Proof.
  intros Hrows ->. revert table Hrows.
  induction rows as [|[[[g t] s] f] rows IH]; intros table.
  - by intros [= ->].
  - rewrite scoreboard_rows_cons.
    destruct (scoreboard_row cat (g, t, s, f) table) as [table1|] eqn:Hrow;
      [|done].
    apply scoreboard_row_Return in Hrow as (task & inner & Htask & Hg & ->).
    intros Hrows Hdom. apply (IH _ Hrows).
    intros g' inner'. rewrite lookup_insert.
    case_decide as Hgg; [|by apply Hdom]. intros [= <-].
    rewrite dom_insert_L, (Hdom _ _ Hg).
    assert (t ∈ task.task_id <$> cat)
      by (apply get_task_by_id_is_Some; eauto).
    set_solver.
Qed.

(** The loop raises as soon as a row has a task the catalog does not have
    or a group the table does not have; the groups being kept, a row that
    fails at its turn fails on the table the loop started with. *)
Lemma scoreboard_rows_Raise rows table :
  (∃ g t s f, (g, t, s, f) ∈ rows ∧
     (task.get_task_by_id cat t = None ∨ table !! g = None)) →
  ∃ e, scoreboard_rows cat rows table = Raise e ∧
    ((∀ g t s f, (g, t, s, f) ∈ rows →
        is_Some (task.get_task_by_id cat t)) → e = KeyError) ∧
    ((∀ g t s f, (g, t, s, f) ∈ rows → is_Some (table !! g)) → e = TypeError).
Proof.
  revert table. induction rows as [|[[[g0 t0] s0] f0] rows IH]; intros table.
  - intros (g & t & s & f & Hin & _). by apply elem_of_nil in Hin.
  - intros (g & t & s & f & Hin & Hbad). rewrite scoreboard_rows_cons.
    destruct (scoreboard_row cat (g0, t0, s0, f0) table) as [table1|e]
      eqn:Hrow.
    + apply scoreboard_row_Return in Hrow as (task & inner & Htask & Hg & ->).
      apply elem_of_cons in Hin as [[= -> -> -> ->]|Hin]; [naive_solver|].
      destruct (IH (<[g0 := <[t0 := row_status task s0 f0]> inner]> table))
        as (e & -> & Hkey & Htype).
      { exists g, t, s, f. split; [done|]. destruct Hbad as [?|Hnone]; [by left|].
        right. rewrite lookup_insert_None. split; [done|]. congruence. }
      exists e. split_and!; [done| |].
      * intros Hall. apply Hkey. intros ???? ?. eapply Hall. by right.
      * intros Hall. apply Htype. intros g' t' s' f' Hin'.
        rewrite lookup_insert_is_Some.
        destruct (decide (g0 = g')); [by left|right].
        split; [done|]. eapply Hall. by right.
    + exists e. split; [done|].
      apply scoreboard_row_Raise in Hrow as [[Htask ->]|(Htask & Hg & ->)].
      * split; [|done]. intros Hall.
        destruct (Hall g0 t0 s0 f0) as [? ?]; [left|congruence].
      * split; [done|]. intros Hall.
        destruct (Hall g0 t0 s0 f0) as [? ?]; [left|congruence].
Qed.
End scoreboard_loop.

(** ** Scoreboard: the function *)

Lemma sql_scoreboard_row_submission rows g t s f :
  (g, t, s, f) ∈ sql_scoreboard rows →
  ∃ r, r ∈ rows ∧ group_id r = g ∧ task_id r = t.
Proof.
  intros (Hne & _)%elem_of_sql_scoreboard. unfold attempts in Hne.
  destruct (filter _ rows) as [|r l] eqn:Hf; [done|].
  assert (r ∈ filter (λ r, group_id r = g ∧ task_id r = t) rows) as Hin
    by (rewrite Hf; left).
  apply list_elem_of_filter in Hin as [[? ?] ?]. eauto.
Qed.

Lemma sql_scoreboard_submission_row rows r :
  r ∈ rows → ∃ s f, (group_id r, task_id r, s, f) ∈ sql_scoreboard rows.
Proof.
  intros Hr. do 2 eexists. apply elem_of_sql_scoreboard.
  split_and!; [|done..]. intros Hnil.
  by eapply (proj1 (attempts_nil _ _ _) Hnil r).
Qed.

Lemma get_scoreboard_eq cat con :
  (get_scoreboard cat con).2 =
  match scoreboard_rows cat (sql_scoreboard (submissions (pending con)))
                        (scoreboard_init cat) with
  | Return table => Return (Some table, None)
  | Raise e => Raise e
  end.
Proof. unfold get_scoreboard. by destruct (scoreboard_rows _ _ _). Qed.

(** With every submission in a group of 1..9 and for a task of the catalog,
    [get_scoreboard] returns, and the table has a 0 where no submission is
    and the status of the row where some are. *)
Lemma get_scoreboard_Return cat con :
  (∀ r, r ∈ submissions (pending con) →
     1 ≤ group_id r ≤ 9 ∧ is_Some (task.get_task_by_id cat (task_id r))) →
  ∃ table,
    (get_scoreboard cat con).2 = Return (Some table, None) ∧
    (∀ g t s f task, (g, t, s, f) ∈ sql_scoreboard (submissions (pending con)) →
       task.get_task_by_id cat t = Some task →
       entry table g t = Some (row_status task s f)) ∧
    (∀ g t, attempts g t (submissions (pending con)) = [] →
       entry table g t =
       if decide (1 ≤ g ≤ 9 ∧ t ∈ task.task_id <$> cat) then Some 0 else None).
Proof.
  intros Hvalid. rewrite get_scoreboard_eq.
  destruct (scoreboard_rows_Return cat
              (sql_scoreboard (submissions (pending con)))
              (scoreboard_init cat))
    as (table & -> & Hin & Hout).
  { apply sql_scoreboard_keys. }
  { intros g t s f (r & Hr & <- & <-)%sql_scoreboard_row_submission.
    destruct (Hvalid r Hr) as [? ?]. split; [done|].
    rewrite scoreboard_init_lookup, decide_True by done. by eexists. }
  exists table. split_and!; [done..|].
  intros g t Hnil. rewrite Hout; [apply scoreboard_init_entry|].
  intros ([[[g' t'] s] f] & [= <- <-] & Hrow)%list_elem_of_fmap.
  by apply elem_of_sql_scoreboard in Hrow as [? _].
Qed.

(** C3 (as amended): when every submission is in a group of 1..9 and for a
    task of the catalog, [get_scoreboard] returns a table that gives, to
    every group of 1..9 and every task of the catalog, Unsolved (0) when the
    group has no submission for the task, and otherwise Exhausted (-1) when
    the task defines [max_attempt] and the fail count is at least
    [max_attempt], whatever the success count, else Solved (1) when the
    success count is positive, else Unsolved (0); the counts are those of
    [get_submissions_statistics]. *)
Theorem get_scoreboard_status (cat : list task.Task) (con : Connection) :
  let subs := submissions (pending con) in
  (∀ r, r ∈ subs →
     1 ≤ group_id r ≤ 9 ∧ is_Some (task.get_task_by_id cat (task_id r))) →
  ∃ table,
    (get_scoreboard cat con).2 = Return (Some table, None) ∧
    ∀ g t task success_count fail_count,
      1 ≤ g ≤ 9 →
      task.get_task_by_id cat t = Some task →
      (get_submissions_statistics g t con).2 =
        (Some (success_count, fail_count), None) →
      let exhausted :=
        ∃ m, task.max_attempt task = Some m ∧ fail_count >= m in
      ∃ status,
        entry table g t = Some status ∧
        (attempts g t subs = [] → status = 0) ∧
        (attempts g t subs ≠ [] →
           (exhausted → status = -1) ∧
           (¬ exhausted → success_count > 0 → status = 1) ∧
           (¬ exhausted → ¬ success_count > 0 → status = 0)).
Proof.
  intros subs Hvalid. subst subs.
  destruct (get_scoreboard_Return cat con Hvalid) as (table & Hret & Hin & Hout).
  exists table. split; [done|].
  intros g t task s f Hg Htask Hstats exhausted.
  rewrite get_submissions_statistics_eq in Hstats. simpl in Hstats.
  destruct (decide (attempts g t (submissions (pending con)) = []))
    as [Hnil|Hne].
  - exists 0. rewrite (Hout g t Hnil), decide_True; [done|].
    split; [done|]. apply get_task_by_id_is_Some. eauto.
  - exists (row_status task s f). split_and!; [|done|intros _].
    + apply Hin; [|done]. apply elem_of_sql_scoreboard. by simplify_eq.
    + subst exhausted. unfold row_status.
      destruct (task.max_attempt task) as [m|]; [case_bool_decide|].
      * split_and!; [done|intros []; eauto|intros []; eauto].
      * split_and!; [intros (? & [= <-] & ?); done| |];
          intros _ ?; case_bool_decide; done.
      * split_and!; [intros (? & [=] & ?)| |];
          intros _ ?; case_bool_decide; done.
Qed.

Lemma scoreboard_con_valid r :
  r ∈ submissions (pending scoreboard_con) →
  1 ≤ group_id r ≤ 9 ∧
  is_Some (task.get_task_by_id example_tasks (task_id r)).
Proof.
  simpl. unfold example_submissions. intros Hr.
  repeat (apply elem_of_cons in Hr as [->|Hr]);
    try (by apply elem_of_nil in Hr);
    (split; [simpl; lia | by eexists]).
Qed.

Lemma get_scoreboard_status_witness :
  ∃ table,
    (get_scoreboard example_tasks scoreboard_con).2 = Return (Some table, None) ∧
    entry table 1 "t1" = Some (-1) ∧
    entry table 2 "t1" = Some 1 ∧
    entry table 3 "t2" = Some 0 ∧
    entry table 4 "t1" = Some 0.
Proof.
  destruct (get_scoreboard_status example_tasks scoreboard_con
              scoreboard_con_valid) as (table & Hret & Hall).
  exists table. split_and!; [exact Hret|..].
  - destruct (Hall 1 "t1" (task.mkTask "t1" (Some 3)) 1 3)
      as (status & -> & _ & Hsome); [lia|reflexivity..|].
    destruct Hsome as (Hexhausted & _); [by vm_compute|].
    rewrite Hexhausted; [reflexivity|]. exists 3. split; [reflexivity|lia].
  - destruct (Hall 2 "t1" (task.mkTask "t1" (Some 3)) 1 1)
      as (status & -> & _ & Hsome); [lia|reflexivity..|].
    destruct Hsome as (_ & Hsolved & _); [by vm_compute|].
    rewrite Hsolved; [reflexivity| |lia]. intros (m & [= <-] & ?). lia.
  - destruct (Hall 3 "t2" (task.mkTask "t2" None) 0 1)
      as (status & -> & _ & Hsome); [lia|reflexivity..|].
    destruct Hsome as (_ & _ & Hunsolved); [by vm_compute|].
    rewrite Hunsolved; [reflexivity| |lia]. intros (m & [=] & ?).
  - destruct (Hall 4 "t1" (task.mkTask "t1" (Some 3)) 0 0)
      as (status & -> & Hnone & _); [lia|reflexivity..|].
    rewrite Hnone; reflexivity.
Defined.

(** C3, the claim as stated fails: for a task whose [max_attempt] is 0, a
    group without any submission has a fail count of 0, which is at least
    [max_attempt], and is given Unsolved (0), not Exhausted (-1). *)
Lemma get_scoreboard_no_attempt_not_exhausted :
  ∃ table,
    (get_scoreboard no_attempt_tasks empty_con).2 = Return (Some table, None) ∧
    task.get_task_by_id no_attempt_tasks "t1" = Some (task.mkTask "t1" (Some 0)) ∧
    (get_submissions_statistics 1 "t1" empty_con).2 = (Some (0, 0), None) ∧
    0 >= 0 ∧
    entry table 1 "t1" = Some 0 ∧
    entry table 1 "t1" ≠ Some (-1).
Proof.
  exists (scoreboard_init no_attempt_tasks).
  split_and!; [done..|lia| |].
  - by rewrite scoreboard_init_entry.
  - by rewrite scoreboard_init_entry.
Qed.

Lemma is_Some_decide {A} (P : Prop) `{Decision P} (x : A) :
  is_Some (if decide P then Some x else None) ↔ P.
Proof. case_decide; split; [done|by eexists|by intros [? [=]]|done]. Qed.

(** C6: the table [get_scoreboard] returns has exactly the groups 1..9 as
    keys and, for each of them, exactly the task ids of the catalog: every
    pair of a group of 1..9 and a task of the catalog has a status, no other
    pair has one, whatever the submission records are; and it returns one
    when every submission is in a group of 1..9 and for a task of the
    catalog. *)
Theorem get_scoreboard_keys (cat : list task.Task) (con : Connection) :
  (∀ table,
     (get_scoreboard cat con).2 = Return (Some table, None) →
     dom table = list_to_set (seqZ 1 9) ∧
     (∀ g inner, table !! g = Some inner →
        dom inner = list_to_set (task.task_id <$> cat)) ∧
     (∀ g t, is_Some (entry table g t) ↔
             1 ≤ g ≤ 9 ∧ t ∈ task.task_id <$> cat))
  ∧ ((∀ r, r ∈ submissions (pending con) →
        1 ≤ group_id r ≤ 9 ∧ is_Some (task.get_task_by_id cat (task_id r))) →
     ∃ table, (get_scoreboard cat con).2 = Return (Some table, None)).
Proof.
  split.
  - intros table. rewrite get_scoreboard_eq.
    destruct (scoreboard_rows _ _ _) as [table'|] eqn:Hrows; [|done].
    intros [= ->].
    assert (dom table = list_to_set (seqZ 1 9)) as Hgroups.
    { rewrite (scoreboard_rows_groups _ _ _ _ Hrows).
      apply set_eq. intros g.
      rewrite elem_of_dom, scoreboard_init_lookup, elem_of_list_to_set,
        elem_of_seqZ, is_Some_decide. lia. }
    assert (∀ g inner, table !! g = Some inner →
              dom inner = list_to_set (task.task_id <$> cat)) as Htasks.
    { apply (scoreboard_rows_tasks _ _ _ _ _ Hrows eq_refl).
      intros g inner. rewrite scoreboard_init_lookup.
      case_decide; [|done]. intros [= <-].
      apply set_eq. intros t.
      by rewrite elem_of_dom, foldl_insert_lookup, lookup_empty,
        elem_of_list_to_set, is_Some_decide. }
    split_and!; [done..|].
    intros g t. unfold entry.
    destruct (table !! g) as [inner|] eqn:Hg; simpl.
    + rewrite <-elem_of_dom, (Htasks _ _ Hg), elem_of_list_to_set.
      assert (g ∈ dom table) as Hin by (by eapply elem_of_dom_2).
      rewrite Hgroups, elem_of_list_to_set, elem_of_seqZ in Hin.
      split; [intros ?; split; [lia|done]|by intros [_ ?]].
    + assert (g ∉ dom table) as Hnin by (by apply not_elem_of_dom).
      rewrite Hgroups, elem_of_list_to_set, elem_of_seqZ in Hnin.
      split; [by intros [? [=]]|intros [? _]; lia].
  - intros Hvalid.
    destruct (get_scoreboard_Return cat con Hvalid) as (table & ? & _).
    eauto.
Qed.

Lemma get_scoreboard_keys_witness :
  ∃ table,
    (get_scoreboard example_tasks scoreboard_con).2 = Return (Some table, None) ∧
    dom table = list_to_set (seqZ 1 9) ∧
    is_Some (entry table 9 "t2") ∧
    ¬ is_Some (entry table 9 "t3") ∧
    ¬ is_Some (entry table 10 "t1").
Proof.
  destruct (get_scoreboard_keys example_tasks scoreboard_con)
    as [Hkeys Hreturns].
  destruct (Hreturns scoreboard_con_valid) as [table Hret].
  destruct (Hkeys table Hret) as (Hdom & _ & Hentry).
  exists table. split_and!; [exact Hret|exact Hdom|..].
  - apply Hentry. split; [lia|]. right; left.
  - intros [_ Hin]%Hentry. revert Hin. compute_done.
  - intros [? _]%Hentry. lia.
Defined.

(** C10 (as amended): when a submission record has a [group_id] outside 1..9,
    [get_scoreboard] raises an exception instead of returning a pair, and
    that exception is the KeyError of [table[group_id]] when the tasks of all
    submissions are in the catalog; when a submission record has a [task_id]
    the catalog does not have, [get_scoreboard] raises too, the TypeError of
    ['max_attempt' in task] when the groups of all submissions are in
    1..9. *)
Theorem get_scoreboard_raises (cat : list task.Task) (con : Connection) :
  let subs := submissions (pending con) in
  ((∃ r, r ∈ subs ∧ ¬ 1 ≤ group_id r ≤ 9) →
     (∃ e, (get_scoreboard cat con).2 = Raise e) ∧
     ((∀ r, r ∈ subs → is_Some (task.get_task_by_id cat (task_id r))) →
        (get_scoreboard cat con).2 = Raise KeyError))
  ∧ ((∃ r, r ∈ subs ∧ task.get_task_by_id cat (task_id r) = None) →
     (∃ e, (get_scoreboard cat con).2 = Raise e) ∧
     ((∀ r, r ∈ subs → 1 ≤ group_id r ≤ 9) →
        (get_scoreboard cat con).2 = Raise TypeError)).
Proof.
  intros subs. subst subs.
  assert ((∃ r, r ∈ submissions (pending con) ∧
             (task.get_task_by_id cat (task_id r) = None ∨
              ¬ 1 ≤ group_id r ≤ 9)) →
          ∃ e, (get_scoreboard cat con).2 = Raise e ∧
            ((∀ r, r ∈ submissions (pending con) →
                is_Some (task.get_task_by_id cat (task_id r))) → e = KeyError) ∧
            ((∀ r, r ∈ submissions (pending con) → 1 ≤ group_id r ≤ 9) →
               e = TypeError)) as Hraise.
  { intros (r & Hr & Hbad). rewrite get_scoreboard_eq.
    destruct (scoreboard_rows_Raise cat
                (sql_scoreboard (submissions (pending con)))
                (scoreboard_init cat)) as (e & -> & Hkey & Htype).
    { destruct (sql_scoreboard_submission_row _ r Hr) as (s & f & Hrow).
      exists (group_id r), (task_id r), s, f. split; [done|].
      destruct Hbad as [?|Hg]; [by left|right].
      by rewrite scoreboard_init_lookup, decide_False. }
    exists e. split_and!; [done| |].
    - intros Hall. apply Hkey.
      intros g t s f (r' & Hr' & <- & <-)%sql_scoreboard_row_submission. auto.
    - intros Hall. apply Htype.
      intros g t s f (r' & Hr' & <- & <-)%sql_scoreboard_row_submission.
      rewrite scoreboard_init_lookup, decide_True by auto. by eexists. }
  split.
  - intros (r & Hr & Hg). destruct Hraise as (e & He & Hkey & _); [by eauto|].
    split; [by eauto|]. intros Hall. by rewrite He, (Hkey Hall).
  - intros (r & Hr & Ht). destruct Hraise as (e & He & _ & Htype); [by eauto|].
    split; [by eauto|]. intros Hall. by rewrite He, (Htype Hall).
Qed.

Lemma with_submission_submissions r con :
  submissions (pending (with_submission r con)) =
  submissions (pending con) ++ [r].
Proof. by destruct r. Qed.

Lemma get_scoreboard_raises_witness :
  (get_scoreboard example_tasks
     (with_submission (mkSubmission 10 "t1" "a" false) scoreboard_con)).2
    = Raise KeyError
  ∧ (get_scoreboard example_tasks
       (with_submission (mkSubmission 1 "t9" "a" false) scoreboard_con)).2
    = Raise TypeError.
Proof.
  split.
  - destruct (get_scoreboard_raises example_tasks
                (with_submission (mkSubmission 10 "t1" "a" false) scoreboard_con))
      as [H _].
    destruct H as [_ H].
    + exists (mkSubmission 10 "t1" "a" false). split; [|simpl; lia].
      rewrite with_submission_submissions. apply elem_of_app. right. left.
    + apply H. rewrite with_submission_submissions.
      intros r [Hr|Hr]%elem_of_app.
      * by apply scoreboard_con_valid.
      * apply list_elem_of_singleton in Hr as ->. by eexists.
  - destruct (get_scoreboard_raises example_tasks
                (with_submission (mkSubmission 1 "t9" "a" false) scoreboard_con))
      as [_ H].
    destruct H as [_ H].
    + exists (mkSubmission 1 "t9" "a" false). split; [|reflexivity].
      rewrite with_submission_submissions. apply elem_of_app. right. left.
    + apply H. rewrite with_submission_submissions.
      intros r [Hr|Hr]%elem_of_app.
      * by apply scoreboard_con_valid.
      * apply list_elem_of_singleton in Hr as ->. simpl. lia.
Defined.

(** C10, the claim as stated fails: a record whose [group_id] is outside
    1..9 and whose [task_id] the catalog does not have makes [get_scoreboard]
    raise the TypeError of ['max_attempt' in task], not a KeyError: the task
    is looked up before [table[group_id]]. *)
Lemma get_scoreboard_raises_TypeError :
  ¬ (1 ≤ 10 ≤ 9)
  ∧ (get_scoreboard example_tasks
       (with_submission (mkSubmission 10 "t9" "a" false) scoreboard_con)).2
    = Raise TypeError
  ∧ (get_scoreboard example_tasks
       (with_submission (mkSubmission 10 "t9" "a" false) scoreboard_con)).2
    ≠ Raise KeyError.
Proof. split_and!; [lia|by vm_compute|by vm_compute]. Qed.

(** The ranking example of the specification: group 3 with 100 points,
    group 1 with 100 points and group 2 with 50 points. *)
Example get_group_point_example :
  (get_group_point
     {| committed := mkDatabase [] [] [];
        pending := mkDatabase [ {| code := "c1"; point := 100; used_by := 3 |};
                                {| code := "c2"; point := 100; used_by := 1 |};
                                {| code := "c3"; point := 50; used_by := 2 |};
                                {| code := "c4"; point := 900; used_by := -1 |};
                                {| code := "c5"; point := 900; used_by := 0 |} ]
                              [] [] |}).2
  = (Some [(1, 100); (3, 100); (2, 50);
           (4, 0); (5, 0); (6, 0); (7, 0); (8, 0); (9, 0)], None).
Proof. by vm_compute. Qed.


(** * Further properties of the module *)

(** ** What a call can do *)

Lemma effect_rows db db' :
  effect db db' →
  point_code db' = point_code db
  ∨ (∃ codes, point_code db' = point_code db ++ (issued_row <$> codes) ∧
       fresh_batch codes (point_code db))
  ∨ (∃ c group r, point_code db' = sql_update group c (point_code db) ∧
       stored c (point_code db) = Some r ∧ ¬ (used_by r > 0 ∨ used_by r = -1))
  ∨ (∃ c r, point_code db' = sql_update (-1) c (point_code db) ∧
       r ∈ point_code db ∧ code r = c ∧ used_by r = 0).
Proof.
  destruct 1; simpl; eauto 10.
Qed.

Lemma api_call_has_effect (con con' : Connection) :
  quiescent con → api_call con con' → effect (pending con) (pending con').
Proof.
  intros Hq Hcall.
  destruct Hcall as [G gen_code fuel p a g con g' con' res Hgen| | c group con
    |c con| | |id con|g t pw ok con| |tasks con]; simpl; try apply effect_none.
  - apply gen_point_code_Some in Hgen
      as (k & _ & Hfresh & _ & _ & -> & _); [|done].
    by apply effect_issue.
  - rewrite use_point_code_eq.
    destruct (stored _ _) as [r|] eqn:Hst; [case_bool_decide|]; simpl;
      try apply effect_none.
    by eapply effect_redeem.
  - destruct (decide (Exists (λ r, code r = c ∧ used_by r = 0)
                        (point_code (pending con)))) as [Hex|Hnex].
    + apply Exists_exists in Hex as (r & Hr & Hc & Hu).
      rewrite (delete_point_code_done c con r) by done.
      by eapply effect_delete.
    + rewrite delete_point_code_used; [apply effect_none|].
      intros r Hr Hc Hu. apply Hnex, Exists_exists. eauto.
  - destruct (get_group_point_connection con) as [-> | ->]; apply effect_none.
  - unfold get_group_selection_message_id.
    destruct (fetchone _); apply effect_none.
  - apply effect_store.
  - apply (effect_log _ (mkSubmission g t pw ok)).
  - unfold get_scoreboard. destruct (scoreboard_rows _ _ _); apply effect_none.
Qed.

(** An invariant of the effects is an invariant of the module. *)
Lemma later_invariant (P : Database → Prop) con con' :
  (∀ db db', effect db db' → P db → P db') →
  quiescent con → later con con' → P (pending con) → P (pending con').
Proof.
  intros Hstep Hq Hl. induction Hl as [|con1 con2 con3 Hcall _ IH]; [done|].
  intros HP. apply IH; [by eapply api_call_quiescent|].
  eapply Hstep; [|done]. by apply api_call_has_effect.
Qed.

(** X1: a call of any function of the module, on a connection with nothing
    pending, has one of six effects on the tables (none, a fresh batch of
    codes appended, one code that was not consumed given a [used_by], one
    unused code marked deleted, a message id appended, a submission
    appended) and leaves nothing pending. *)
Theorem api_call_effect (con con' : Connection) :
  quiescent con → api_call con con' →
  effect (pending con) (pending con') ∧ quiescent con'.
Proof.
  intros Hq Hcall. split.
  - by apply api_call_has_effect.
  - by eapply api_call_quiescent.
Qed.

Lemma api_call_effect_witness :
  effect (pending example_con)
         (pending (use_point_code "BBBB" 4 example_con).1)
  ∧ quiescent (use_point_code "BBBB" 4 example_con).1.
Proof.
  apply (api_call_effect example_con);
    [reflexivity | apply call_use_point_code].
Defined.

(** ** Codes stay, and stay unique *)

Lemma effect_primary_key db db' :
  effect db db' → primary_key (point_code db) → primary_key (point_code db').
Proof.
  intros Heff Hpk. unfold primary_key in *.
  destruct (effect_rows db db' Heff)
    as [->|[(codes & -> & Hnd & Hfresh)|[(c & g & r & -> & _)|(c & r & -> & _)]]];
    rewrite ?sql_update_codes; try done.
  rewrite fmap_app. apply NoDup_app. split_and!; [done| |].
  - intros c Hc Hc'. apply (Hfresh c); [|done].
    by rewrite <-list_fmap_compose in Hc'.
  - by rewrite <-list_fmap_compose.
Qed.


(** X2: the codes of [point_code] stay pairwise distinct: from a connection
    with nothing pending whose table has no code twice, no sequence of calls
    of the module leads to a table that has a code twice. *)
Theorem later_primary_key (con con' : Connection) :
  quiescent con → later con con' →
  primary_key (point_code (pending con)) →
  primary_key (point_code (pending con')).
Proof.
  intros Hq Hl.
  apply (later_invariant (λ db, primary_key (point_code db)) con con');
    [|done..].
  apply effect_primary_key.
Qed.

Lemma later_primary_key_witness :
  primary_key
    (point_code (pending (delete_point_code "BBBB"
                            (use_point_code "BBBB" 0 example_con).1).1)).
Proof.
  apply (later_primary_key example_con); [reflexivity| |].
  - eapply rtc_l; [apply call_use_point_code|].
    apply rtc_once. apply call_delete_point_code.
  - unfold primary_key. compute_done.
Defined.



(** ** A consumed code is final *)

Lemma effect_spent_row db db' c r :
  used_by r > 0 ∨ used_by r = -1 →
  effect db db' →
  primary_key (point_code db) ∧ stored c (point_code db) = Some r →
  primary_key (point_code db') ∧ stored c (point_code db') = Some r.
Proof.
  intros Hr Heff [Hpk Hst]. split; [by eapply effect_primary_key|].
  destruct (effect_rows db db' Heff)
    as [->|[(codes & -> & _)|[(c' & g & r' & -> & Hst' & Hr')
                             |(c' & r' & -> & Hin & Hc' & Hu)]]].
  - done.
  - by rewrite stored_app, Hst.
  - destruct (decide (c = c')) as [<-|Hne]; [naive_solver|].
    by rewrite stored_update_ne.
  - destruct (decide (c = c')) as [<-|Hne].
    + rewrite (primary_key_stored c _ r r') in Hu by done. lia.
    + by rewrite stored_update_ne.
Qed.

(** X4: in a table without a code twice, the row of a code that is redeemed
    ([used_by] > 0) or deleted ([used_by] = -1) is never changed again: after
    any sequence of calls it is stored as it was, and both
    [delete_point_code] and [use_point_code] on it fail with 'used' and
    change nothing. *)
Theorem later_spent_row (c : string) (r : CodePoint) (con con' : Connection) :
  quiescent con →
  primary_key (point_code (pending con)) →
  stored c (point_code (pending con)) = Some r →
  used_by r > 0 ∨ used_by r = -1 →
  later con con' →
  stored c (point_code (pending con')) = Some r ∧
  delete_point_code c con' = (commit con', (None, Some "used")) ∧
  ∀ group, use_point_code c group con' = (commit con', (None, Some "used")).
Proof.
  intros Hq Hpk Hst Hr Hl.
  assert (primary_key (point_code (pending con')) ∧
          stored c (point_code (pending con')) = Some r) as [Hpk' Hst'].
  { apply (later_invariant
      (λ db, primary_key (point_code db) ∧ stored c (point_code db) = Some r)
      con con'); [|done..].
    intros db db'. by apply effect_spent_row. }
  split_and!; [done| |].
  - apply delete_point_code_used. intros r' Hr' Hc.
    rewrite (primary_key_stored c _ r r') by done. lia.
  - intros group. rewrite use_point_code_eq, Hst'.
    by rewrite bool_decide_eq_true_2.
Qed.

Lemma later_spent_row_witness :
  stored "AAAA"
    (point_code (pending (delete_point_code "AAAA" example_con).1))
    = Some {| code := "AAAA"; point := 100; used_by := 3 |}
  ∧ delete_point_code "AAAA" (delete_point_code "AAAA" example_con).1
    = (commit (delete_point_code "AAAA" example_con).1, (None, Some "used")).
Proof.
  destruct (later_spent_row "AAAA"
              {| code := "AAAA"; point := 100; used_by := 3 |}
              example_con (delete_point_code "AAAA" example_con).1)
    as (Hst & Hdel & _).
  - reflexivity.
  - unfold primary_key. compute_done.
  - reflexivity.
  - left. reflexivity.
  - apply rtc_once. apply call_delete_point_code.
  - split; [exact Hst | exact Hdel].
Defined.

(** ** Issued codes *)

Lemma stored_unique c r0 rows :
  c ∈ code <$> rows → (∀ r, r ∈ rows → code r = c → r = r0) →
  stored c rows = Some r0.
Proof.
  intros Hin Hall. destruct (stored c rows) as [r|] eqn:Hst.
  - f_equal. apply Hall; [by eapply stored_elem_of|by eapply stored_code].
  - by apply stored_None in Hst.
Qed.



(** X6: with an [amount] of 0 or less [gen_point_code] returns the empty
    list and no error at its first iteration, draws nothing from the
    generator and inserts nothing. *)
Theorem gen_point_code_no_amount {G : Type} (gen_code : G → string * G)
    (fuel : nat) (point amount : Z) (g : G) (con : Connection) :
  amount ≤ 0 →
  gen_point_code gen_code (S fuel) point amount g con
    = Some (g, commit con, (Some [], None)).
Proof.
  intros Hamount. simpl. by rewrite (Z2Nat.nonpos amount Hamount).
Qed.

Lemma gen_point_code_no_amount_witness :
  gen_point_code constant_gen_code 1 10 (-3) tt example_con
    = Some (tt, commit example_con, (Some [], None)).
Proof.
  apply (gen_point_code_no_amount constant_gen_code 0 10 (-3) tt example_con).
  lia.
Defined.

(** ** The group-selection message *)





(** ** Logging and counting *)

(** X8: logging a submission adds one to the success count (when correct) or
    to the fail count (when not) that [get_submissions_statistics] returns
    for its group and task, and changes the counts of no other pair. *)
Theorem log_submission_counts (g : Z) (t pw : string) (ok : bool)
    (g' : Z) (t' : string) (con : Connection) (s f : Z) :
  (get_submissions_statistics g' t' con).2 = (Some (s, f), None) →
  (get_submissions_statistics g' t' (log_submission g t pw ok con).1).2 =
  (Some (if decide (g = g' ∧ t = t')
         then (if ok then (s + 1, f) else (s, f + 1))
         else (s, f)), None).
Proof.
  rewrite !get_submissions_statistics_eq. simpl. intros [= <- <-].
  unfold attempts. rewrite filter_app.
  destruct (decide (g = g' ∧ t = t')) as [Hgt|Hgt].
  - rewrite (filter_cons_True _ (mkSubmission g t pw ok)) by done.
    rewrite !filter_app, !length_app. destruct ok.
    + rewrite filter_cons_True, filter_cons_False by done. simpl.
      do 3 f_equal; lia.
    + rewrite filter_cons_False, filter_cons_True by done. simpl.
      do 3 f_equal; lia.
  - rewrite (filter_cons_False _ (mkSubmission g t pw ok)) by done.
    by rewrite filter_nil, app_nil_r.
Qed.

Lemma log_submission_counts_witness :
  (get_submissions_statistics 2 "t1"
     (log_submission 2 "t1" "again" false scoreboard_con).1).2
  = (Some (1, 2), None).
Proof.
  apply (log_submission_counts 2 "t1" "again" false 2 "t1" scoreboard_con 1 1).
  reflexivity.
Defined.

(** ** The ranking *)

Lemma elem_of_ranked_totals_fst rows g :
  g ∈ (ranked_totals rows).*1 ↔ g > 0 ∧ g ∈ used_by <$> rows.
Proof.
  rewrite list_elem_of_fmap. split.
  - intros ([g' t] & -> & (? & ? & _)%elem_of_ranked_totals). done.
  - intros [Hpos Hin]. eexists (g, _). split; [done|].
    apply elem_of_ranked_totals. done.
Qed.

(** The entries of a list [get_group_point] returns. *)
Lemma elem_of_get_group_point con res g t :
  (get_group_point con).2 = (Some res, None) →
  (g, t) ∈ res ↔
  (g > 0 ∧ g ∈ used_by <$> point_code (pending con) ∧
   t = redeemed_total g (point_code (pending con)))
  ∨ (1 ≤ g ≤ 9 ∧ g ∉ (used_by <$> point_code (pending con)) ∧ t = 0).
Proof.
  intros [_ ->]%get_group_point_Some. unfold redeemed_total.
  rewrite padding_ranked_totals, elem_of_app, elem_of_ranked_totals.
  apply or_iff_compat_l.
  rewrite list_elem_of_fmap. split.
  - intros (i & [= -> ->] & Hf).
    apply list_elem_of_filter in Hf as [Hi Hin]. apply elem_of_seqZ in Hin.
    split_and!; [lia..|done|done].
  - intros (Hg & Hnin & ->). exists g. split; [done|].
    apply list_elem_of_filter. split; [done|apply elem_of_seqZ; lia].
Qed.

Lemma pad_fst (ids : list Z) : ((λ i, (i, 0)) <$> ids).*1 = ids.
Proof.
  induction ids as [|i ids IH]; [done|]. rewrite !fmap_cons. simpl.
  by rewrite IH.
Qed.

(** X9: in a list [get_group_point] returns no group appears twice and each
    group of 1..9 appears, so each of them appears exactly once. *)
Theorem ranking_groups (con : Connection) (res : list (Z * Z)) :
  (get_group_point con).2 = (Some res, None) →
  NoDup res.*1 ∧ ∀ i, 1 ≤ i ≤ 9 → i ∈ res.*1.
Proof.
  intros Hres. split.
  - apply get_group_point_Some in Hres as [_ ->].
    unfold padding. rewrite fmap_app, pad_fst. apply NoDup_app. split_and!.
    + rewrite ranked_totals_fst. apply NoDup_fst_map_to_list.
    + intros g Hg Hpad. by apply list_elem_of_filter in Hpad as [Hpad _].
    + apply NoDup_filter, NoDup_seqZ.
  - intros i Hi. apply list_elem_of_fmap.
    destruct (decide (i ∈ used_by <$> point_code (pending con))).
    + exists (i, redeemed_total i (point_code (pending con))).
      split; [done|]. apply (elem_of_get_group_point con); [done|].
      left. split_and!; [lia|done..].
    + exists (i, 0). split; [done|].
      apply (elem_of_get_group_point con); [done|]. by right.
Qed.

Lemma ranking_groups_witness :
  NoDup [3; 1; 2; 4; 5; 6; 7; 8; 9] ∧ 5 ∈ [3; 1; 2; 4; 5; 6; 7; 8; 9].
Proof.
  destruct (ranking_groups example_con
              [(3, 100); (1, 0); (2, 0); (4, 0); (5, 0); (6, 0); (7, 0);
               (8, 0); (9, 0)]) as [Hnd Hall].
  - by vm_compute.
  - split; [exact Hnd | apply Hall; lia].
Defined.

Lemma sum_Z_app xs ys : sum_Z (xs ++ ys) = sum_Z xs + sum_Z ys.
Proof.
  unfold sum_Z. induction xs as [|x xs IH]; simpl; [done|]. rewrite IH. lia.
Qed.

Lemma sql_update_cons group c r rows :
  sql_update group c (r :: rows) =
  (if decide (code r = c)
   then {| code := code r; point := point r; used_by := group |}
   else r) :: sql_update group c rows.
Proof. done. Qed.

Lemma sql_update_absent group c rows :
  c ∉ code <$> rows → sql_update group c rows = rows.
Proof.
  induction rows as [|r rows IH]; [done|].
  rewrite fmap_cons, not_elem_of_cons. intros [Hne Hnin].
  by rewrite sql_update_cons, IH, decide_False.
Qed.

(** Under the PRIMARY KEY an UPDATE by code changes one row. *)
Lemma primary_key_update group c r rows :
  primary_key rows → stored c rows = Some r →
  ∃ before after,
    rows = before ++ r :: after ∧
    sql_update group c rows =
      before ++ {| code := code r; point := point r; used_by := group |}
             :: after.
Proof.
  unfold primary_key. induction rows as [|r0 rows IH]; [done|].
  rewrite fmap_cons, NoDup_cons, stored_cons. intros [Hr0 Hnd].
  case_decide as Hc.
  - intros [= ->]. exists [], rows. split; [done|].
    rewrite sql_update_cons, decide_True by done.
    rewrite sql_update_absent by (by rewrite <-Hc). done.
  - intros Hst. destruct (IH Hnd Hst) as (before & after & -> & Hupd).
    exists (r0 :: before), after. split; [done|].
    rewrite <-!app_comm_cons, sql_update_cons, decide_False by done.
    by rewrite Hupd.
Qed.

Lemma redeemed_total_app g rows rows' :
  redeemed_total g (rows ++ rows') =
  redeemed_total g rows + redeemed_total g rows'.
Proof. unfold redeemed_total. by rewrite filter_app, fmap_app, sum_Z_app. Qed.

Lemma redeemed_total_cons g r rows :
  redeemed_total g (r :: rows) =
  (if decide (used_by r = g) then point r else 0) + redeemed_total g rows.
Proof.
  unfold redeemed_total. rewrite filter_cons. by case_decide.
Qed.

(** X10: in a table without a code twice, after a successful
    [use_point_code] for a group greater than 0, a list [get_group_point]
    returns has for that group the sum of the points it held before plus the
    code's point value, and has for every other group the entry it had in
    the list returned before. *)
Theorem use_point_code_ranking (c : string) (group p : Z)
    (con con' : Connection) (res' : list (Z * Z)) :
  primary_key (point_code (pending con)) →
  group > 0 →
  use_point_code c group con = (con', (Some p, None)) →
  (get_group_point con').2 = (Some res', None) →
  (group,
   foldr Z.add 0
     (point <$> filter (λ r, used_by r = group) (point_code (pending con)))
   + p) ∈ res' ∧
  ∀ res, (get_group_point con).2 = (Some res, None) →
    ∀ g t, g ≠ group → (g, t) ∈ res' ↔ (g, t) ∈ res.
Proof.
  intros Hpk Hgroup. rewrite use_point_code_eq.
  destruct (stored c (point_code (pending con))) as [r|] eqn:Hst; [|done].
  case_bool_decide as Hr; [done|]. intros [= <- <-] Hres'.
  change (foldr Z.add 0
            (point <$> filter (λ r, used_by r = group)
                         (point_code (pending con))))
    with (redeemed_total group (point_code (pending con))).
  destruct (primary_key_update group c r _ Hpk Hst)
    as (before & after & Hrows & Hupd).
  assert (∀ g, redeemed_total g (point_code (pending con)) =
               redeemed_total g before +
               (if decide (used_by r = g) then point r else 0) +
               redeemed_total g after) as Htotal.
  { intros g. rewrite Hrows, redeemed_total_app, redeemed_total_cons. lia. }
  assert (∀ g, redeemed_total g (sql_update group c (point_code (pending con))) =
               redeemed_total g before +
               (if decide (group = g) then point r else 0) +
               redeemed_total g after) as Htotal'.
  { intros g. rewrite Hupd, redeemed_total_app, redeemed_total_cons. simpl. lia. }
  assert (∀ g, g > 0 → g ≠ group →
            g ∈ used_by <$> sql_update group c (point_code (pending con)) ↔
            g ∈ used_by <$> point_code (pending con)) as Hused.
  { intros g Hg Hne. rewrite Hupd, Hrows, !fmap_app, !fmap_cons.
    rewrite !elem_of_app, !elem_of_cons. simpl.
    split; (intros [?|[?|?]]; [by left|lia|by right; right]). }
  split.
  - apply (elem_of_get_group_point _ _ _ _ Hres'). left. simpl.
    split_and!; [done| |].
    + rewrite Hupd, fmap_app, fmap_cons, elem_of_app, elem_of_cons. simpl.
      right; by left.
    + rewrite Htotal, Htotal'.
      rewrite (decide_True (P:=group = group)) by done.
      rewrite (decide_False (P:=used_by r = group)) by lia. lia.
  - intros res Hres g t Hne.
    rewrite (elem_of_get_group_point _ _ _ _ Hres').
    rewrite (elem_of_get_group_point _ _ _ _ Hres). simpl.
    destruct (decide (g > 0)) as [Hg|Hg];
      [|split; (intros [(? & _)|(? & _)]; lia)].
    rewrite (Hused g Hg Hne), Htotal, Htotal'.
    rewrite !(decide_False (P:=_ = g)) by lia. done.
Qed.

Lemma use_point_code_ranking_witness :
  (4, 0 + 7) ∈ [(3, 100); (4, 7); (1, 0); (2, 0); (5, 0); (6, 0); (7, 0);
                (8, 0); (9, 0)].
Proof.
  destruct (use_point_code_ranking "BBBB" 4 7 example_con
              (use_point_code "BBBB" 4 example_con).1
              [(3, 100); (4, 7); (1, 0); (2, 0); (5, 0); (6, 0); (7, 0);
               (8, 0); (9, 0)]) as [Hin _].
  - unfold primary_key. compute_done.
  - lia.
  - reflexivity.
  - by vm_compute.
  - exact Hin.
Defined.

(** X11: in a table without a code twice, [delete_point_code] does not
    change what [get_group_point] returns, list or error, whether it
    succeeds or fails. *)
Theorem delete_point_code_ranking (c : string) (con : Connection) :
  primary_key (point_code (pending con)) →
  (get_group_point (delete_point_code c con).1).2 = (get_group_point con).2 ∧
  ranking (delete_point_code c con).1 = ranking con.
Proof.
  intros Hpk.
  assert ((get_group_point (delete_point_code c con).1).2
          = (get_group_point con).2) as Hsame;
    [|split; [done|]; unfold ranking; by rewrite Hsame].
  apply get_group_point_result.
  destruct (decide (Exists (λ r, code r = c ∧ used_by r = 0)
                      (point_code (pending con)))) as [Hex|Hnex].
  - apply Exists_exists in Hex as (r & Hr & Hc & Hu).
    rewrite (delete_point_code_done c con r) by done.
    assert (stored c (point_code (pending con)) = Some r) as Hst.
    { apply stored_unique; [rewrite <-Hc; by apply list_elem_of_fmap_2|].
      intros r' Hr' Hc'.
      destruct (stored c (point_code (pending con))) as [r0|] eqn:Hst0.
      - rewrite (primary_key_stored c (point_code (pending con)) r0 r')
          by done.
        by rewrite (primary_key_stored c (point_code (pending con)) r0 r).
      - apply stored_None in Hst0. destruct Hst0. rewrite <-Hc.
        by apply list_elem_of_fmap_2. }
    destruct (primary_key_update (-1) c r _ Hpk Hst)
      as (before & after & Hrows & Hupd).
    simpl. unfold sql_group_point. rewrite Hupd, Hrows, !filter_app.
    rewrite (filter_cons_False _ r) by lia.
    by rewrite (filter_cons_False _ (mkCodePoint _ _ _)) by (simpl; lia).
  - rewrite delete_point_code_used; [done|].
    intros r Hr Hc Hu. apply Hnex, Exists_exists. eauto.
Qed.

Lemma delete_point_code_ranking_witness :
  (get_group_point (delete_point_code "BBBB" example_con).1).2
    = (get_group_point example_con).2
  ∧ ranking (delete_point_code "BBBB" example_con).1 = ranking example_con.
Proof.
  apply (delete_point_code_ranking "BBBB" example_con).
  unfold primary_key. compute_done.
Defined.

(** ** The scoreboard over time *)

(** [get_scoreboard] returns only when every submission is in a group of
    1..9 and for a task of the catalog. *)
Lemma get_scoreboard_Return_valid cat con table :
  (get_scoreboard cat con).2 = Return (Some table, None) →
  ∀ r, r ∈ submissions (pending con) →
    1 ≤ group_id r ≤ 9 ∧ is_Some (task.get_task_by_id cat (task_id r)).
Proof.
  rewrite get_scoreboard_eq. intros Hret r Hr.
  destruct (decide (1 ≤ group_id r ≤ 9)) as [Hg|Hg];
    [destruct (task.get_task_by_id cat (task_id r)) as [task|] eqn:Ht;
       [by eauto|]|];
    destruct (scoreboard_rows_Raise cat
                (sql_scoreboard (submissions (pending con)))
                (scoreboard_init cat)) as (e & He & _);
    try (rewrite He in Hret; done);
    destruct (sql_scoreboard_submission_row _ r Hr) as (s & f & Hrow);
    exists (group_id r), (task_id r), s, f; (split; [done|]).
  - by left.
  - right. by rewrite scoreboard_init_lookup, decide_False.
Qed.

Lemma row_status_exhausted task s f :
  row_status task s f = -1 ↔
  ∃ m, task.max_attempt task = Some m ∧ f >= m.
Proof.
  unfold row_status. destruct (task.max_attempt task) as [m|].
  - case_bool_decide; [naive_solver|].
    split; [case_bool_decide; done|]. intros (? & [= <-] & ?). done.
  - split; [case_bool_decide; done|]. intros (? & [=] & _).
Qed.

(** X12: Exhausted is final: when [get_scoreboard] gives a group -1 for a
    task, it still gives it -1 after one more submission is logged, whoever
    submits and whatever the outcome (the new submission being in a group of
    1..9 and for a task of the catalog, so that [get_scoreboard] returns). *)
Theorem exhausted_stays (cat : list task.Task) (con : Connection)
    (table : gmap Z (gmap string Z)) (g : Z) (t : string)
    (g' : Z) (t' pw : string) (ok : bool) :
  (get_scoreboard cat con).2 = Return (Some table, None) →
  entry table g t = Some (-1) →
  1 ≤ g' ≤ 9 →
  is_Some (task.get_task_by_id cat t') →
  ∃ table',
    (get_scoreboard cat (log_submission g' t' pw ok con).1).2
      = Return (Some table', None) ∧
    entry table' g t = Some (-1).
Proof.
  intros Hret Hentry Hg' Ht'.
  pose proof (get_scoreboard_Return_valid cat con table Hret) as Hvalid.
  destruct (get_scoreboard_Return cat con Hvalid) as (table0 & Hret0 & Hin & Hout).
  assert (table0 = table) as -> by congruence.
  set (subs := submissions (pending con)) in *.
  destruct (decide (attempts g t subs = [])) as [Hnil|Hne].
  { rewrite (Hout g t Hnil) in Hentry. by case_decide. }
  assert (∃ r0, r0 ∈ subs ∧ group_id r0 = g ∧ task_id r0 = t)
    as (r0 & Hr0 & Hg0 & Ht0).
  { unfold attempts in Hne. destruct (filter _ subs) as [|r0 l] eqn:Hf; [done|].
    assert (r0 ∈ filter (λ r, group_id r = g ∧ task_id r = t) subs) as Hr0
      by (rewrite Hf; left).
    apply list_elem_of_filter in Hr0 as [[? ?] ?]. eauto. }
  destruct (Hvalid r0 Hr0) as [_ [task Htask]]. rewrite Ht0 in Htask.
  erewrite Hin in Hentry; [|by apply elem_of_sql_scoreboard|done].
  injection Hentry as Hstatus.
  apply row_status_exhausted in Hstatus as (m & Hm & Hf).
  set (con' := (log_submission g' t' pw ok con).1).
  assert (submissions (pending con') = subs ++ [mkSubmission g' t' pw ok])
    as Hsubs' by done.
  destruct (get_scoreboard_Return cat con') as (table' & Hret' & Hin' & _).
  { rewrite Hsubs'. intros r [Hr|Hr]%elem_of_app; [by apply Hvalid|].
    apply list_elem_of_singleton in Hr as ->. done. }
  exists table'. split; [done|].
  erewrite Hin'; [|apply elem_of_sql_scoreboard; split_and!; [|done..]|done].
  - f_equal. apply row_status_exhausted. exists m. split; [done|].
    rewrite Hsubs'. unfold attempts in *. rewrite !filter_app, length_app.
    lia.
  - rewrite Hsubs'. unfold attempts in *. rewrite filter_app.
    by destruct (filter _ subs).
Qed.

Lemma exhausted_stays_witness :
  ∃ table',
    (get_scoreboard example_tasks
       (log_submission 1 "t1" "e" true scoreboard_con).1).2
      = Return (Some table', None) ∧
    entry table' 1 "t1" = Some (-1).
Proof.
  destruct (get_scoreboard_Return example_tasks scoreboard_con
              scoreboard_con_valid) as (table & Hret & Hin & _).
  apply (exhausted_stays example_tasks scoreboard_con table 1 "t1"
           1 "t1" "e" true Hret).
  - rewrite (Hin 1 "t1" 1 3 (task.mkTask "t1" (Some 3))); [reflexivity| |reflexivity].
    apply elem_of_sql_scoreboard. split_and!; [by vm_compute|reflexivity..].
  - lia.
  - by eexists.
Defined.

(** X13: every status in a table [get_scoreboard] returns is -1, 0 or 1. *)
Theorem get_scoreboard_values (cat : list task.Task) (con : Connection)
    (table : gmap Z (gmap string Z)) (g : Z) (t : string) (status : Z) :
  (get_scoreboard cat con).2 = Return (Some table, None) →
  entry table g t = Some status →
  status = -1 ∨ status = 0 ∨ status = 1.
Proof.
  intros Hret Hentry.
  pose proof (get_scoreboard_Return_valid cat con table Hret) as Hvalid.
  destruct (get_scoreboard_Return cat con Hvalid) as (table0 & Hret0 & Hin & Hout).
  assert (table0 = table) as -> by congruence.
  destruct (decide (attempts g t (submissions (pending con)) = []))
    as [Hnil|Hne].
  { rewrite (Hout g t Hnil) in Hentry. case_decide; naive_solver. }
  assert (∃ r0, r0 ∈ submissions (pending con) ∧
                group_id r0 = g ∧ task_id r0 = t) as (r0 & Hr0 & Hg0 & Ht0).
  { unfold attempts in Hne.
    destruct (filter _ (submissions (pending con))) as [|r0 l] eqn:Hf; [done|].
    assert (r0 ∈ filter (λ r, group_id r = g ∧ task_id r = t)
                   (submissions (pending con))) as Hr0
      by (rewrite Hf; left).
    apply list_elem_of_filter in Hr0 as [[? ?] ?]. eauto. }
  destruct (Hvalid r0 Hr0) as [_ [task Htask]]. rewrite Ht0 in Htask.
  erewrite Hin in Hentry; [|by apply elem_of_sql_scoreboard|done].
  injection Hentry as <-. unfold row_status.
  destruct (match task.max_attempt task with
            | Some m => _ | None => false end); [by left|].
  case_bool_decide; auto.
Qed.

Lemma get_scoreboard_values_witness :
  ∃ table,
    (get_scoreboard example_tasks scoreboard_con).2 = Return (Some table, None) ∧
    entry table 2 "t1" = Some 1 ∧
    (1 = -1 ∨ 1 = 0 ∨ 1 = 1).
Proof.
  destruct (get_scoreboard_Return example_tasks scoreboard_con
              scoreboard_con_valid) as (table & Hret & Hin & _).
  assert (entry table 2 "t1" = Some 1) as Hentry.
  { rewrite (Hin 2 "t1" 1 1 (task.mkTask "t1" (Some 3)));
      [reflexivity| |reflexivity].
    apply elem_of_sql_scoreboard. split_and!; [by vm_compute|reflexivity..]. }
  exists table. split_and!; [exact Hret|exact Hentry|].
  exact (get_scoreboard_values example_tasks scoreboard_con table 2 "t1" 1
           Hret Hentry).
Defined.

(** ** Points are conserved *)

Lemma sum_Z_Permutation xs ys : xs ≡ₚ ys → sum_Z xs = sum_Z ys.
Proof.
  unfold sum_Z. induction 1; simpl; lia.
Qed.

Lemma sum_Z_cons x xs : sum_Z (x :: xs) = x + sum_Z xs.
Proof. done. Qed.

(** The sum over the groups of the sums of the groups is the sum of the
    rows. *)
Lemma sql_group_by_sum (rows : list CodePoint) :
  sum_Z ((λ '(g, rs), sum_Z (point <$> rs))
           <$> map_to_list (sql_group_by used_by rows)) =
  sum_Z (point <$> rows).
Proof.
  induction rows as [|r rows IH]; [done|].
  rewrite fmap_cons, sum_Z_cons, <-IH. clear IH.
  change (sql_group_by used_by (r :: rows)) with
    (<[used_by r := r :: default [] (sql_group_by used_by rows !! used_by r)]>
       (sql_group_by used_by rows)).
  generalize (sql_group_by used_by rows). intros m.
  destruct (m !! used_by r) as [group|] eqn:Hg; simpl.
  - rewrite <-insert_delete_eq.
    rewrite (sum_Z_Permutation _ _
      (fmap_Permutation _ _ _
         (map_to_list_insert (delete (used_by r) m) (used_by r) (r :: group)
            (lookup_delete_eq m (used_by r))))).
    rewrite <-(sum_Z_Permutation _ _
      (fmap_Permutation _ _ _ (map_to_list_delete m (used_by r) group Hg))).
    rewrite !fmap_cons, !sum_Z_cons. lia.
  - rewrite (sum_Z_Permutation _ _
      (fmap_Permutation _ _ _
         (map_to_list_insert m (used_by r) [r] Hg))).
    rewrite !fmap_cons, !sum_Z_cons. unfold sum_Z. simpl. lia.
Qed.

(** X14: the totals of a list [get_group_point] returns add up to the sum
    of [point] over the rows with [used_by] > 0: every redeemed point is
    counted once, and unused or deleted codes count for nothing. *)
Theorem ranking_total (con : Connection) (res : list (Z * Z)) :
  (get_group_point con).2 = (Some res, None) →
  foldr Z.add 0 res.*2 =
  foldr Z.add 0
    (point <$> filter (λ r, used_by r > 0) (point_code (pending con))).
Proof.
  intros [_ ->]%get_group_point_Some.
  change (sum_Z (ranked_totals (point_code (pending con)) ++
                 padding (ranked_totals (point_code (pending con)))).*2 =
          sum_Z (point <$> filter (λ r, used_by r > 0)
                             (point_code (pending con)))).
  unfold padding. rewrite fmap_app, sum_Z_app.
  assert (∀ ids : list Z, sum_Z ((λ i, (i, 0)) <$> ids).*2 = 0) as ->.
  { intros ids. induction ids as [|i ids IH]; [done|].
    by rewrite !fmap_cons, sum_Z_cons, IH. }
  unfold ranked_totals.
  rewrite (sum_Z_Permutation _ _
    (fmap_Permutation _ _ _ (merge_sort_Permutation _ _))).
  rewrite <-sql_group_by_sum, <-list_fmap_compose, Z.add_0_r.
  f_equal. apply list_fmap_ext. by intros ? [] ?.
Qed.

Lemma ranking_total_witness :
  foldr Z.add 0 [100; 0; 0; 0; 0; 0; 0; 0; 0] =
  foldr Z.add 0
    (point <$> filter (λ r, used_by r > 0) (point_code (pending example_con))).
Proof.
  apply (ranking_total example_con
           [(3, 100); (1, 0); (2, 0); (4, 0); (5, 0); (6, 0); (7, 0);
            (8, 0); (9, 0)]).
  by vm_compute.
Defined.
